(** * A thread-safe ring buffer: [ring_buffer.h]

    Shallow embedding of the two ring-buffer strategies of
    [namespace ring_buffer] ([GuardElemRingBuffer] and
    [FullFlagRingBuffer]) and of the interface they implement
    ([BaseRingBuffer]), followed by the properties of the specification.

    Conventions.
    - [size_t] is a 64-bit unsigned integer: a [Z] in [0, 2^64), every
      addition and subtraction of the source wrapped explicitly.
    - [std::array<T, N>] is a [list T] of length [N]; [operator[]] outside
      [0, N) is undefined behaviour, which the embedding makes explicit
      with the [outcome] monad.
    - A member function that mutates [*this] takes the object and returns
      the new object.
    - The template parameter [S] (the nominal capacity) is the parameter
      [Cap] of the definitions; the properties take it in
      [1 <= Cap < SIZE_MAX], where both [S] and [S + 1] are nonzero
      [size_t] values.

    The file has the embedding first (the two classes, the contract of
    the specification, the calls of several threads), then the proofs
    that both classes refine the contract, then the properties. *)

From Stdlib Require Import ZArith Lia List Bool.
From stdpp Require Import base list.
Import ListNotations.

Local Open Scope Z_scope.

(** ** [size_t] *)

Module SizeT.

Definition modulus : Z := 2 ^ 64.

Definition SIZE_MAX : Z := modulus - 1.

(** Unsigned arithmetic is performed modulo [2^64]. *)
Definition wrap (x : Z) : Z := x mod modulus.

Definition add (a b : Z) : Z := wrap (a + b).

Definition sub (a b : Z) : Z := wrap (a - b).

End SizeT.

(** ** Outcomes of a call

    [Undefined] stands for undefined behaviour of the C++ program (here:
    indexing a [std::array] out of bounds). *)

Inductive outcome (A : Type) : Type :=
| Done (a : A)
| Undefined.

Arguments Done {A} a.
Arguments Undefined {A}.

#[global] Instance outcome_ret : MRet outcome := λ A a, Done a.

#[global] Instance outcome_bind : MBind outcome :=
  λ A B f m, match m with Done a => f a | Undefined => Undefined end.

#[global] Instance outcome_fmap : FMap outcome :=
  λ A B f m, match m with Done a => Done (f a) | Undefined => Undefined end.


(** ** [std::array] *)

Module StdArray.
Section Array.
Context {T : Type}.

Definition in_bounds (a : list T) (i : Z) : bool :=
  (0 <=? i) && (i <? Z.of_nat (length a)).

(** [a[i]] read. *)
Definition get (a : list T) (i : Z) : outcome T :=
  if in_bounds a i then
    match a !! Z.to_nat i with
    | Some x => Done x
    | None => Undefined
    end
  else Undefined.

(** [a[i] = x]. *)
Definition set (a : list T) (i : Z) (x : T) : outcome (list T) :=
  if in_bounds a i then Done (<[Z.to_nat i := x]> a) else Undefined.

End Array.
End StdArray.

(** ** The interface [BaseRingBuffer<T>]

    The seven pure virtual member functions; [B] is the type of the
    object's state.  [capacity] is the one [StaticCapacityRingBuffer]
    overrides for both strategies. *)

Module Base.

Class RingBuffer (T B : Type) : Type := {
  read : B → outcome (option T * B);
  write : T → B → outcome B;
  clear : B → B;
  full : B → bool;
  empty : B → bool;
  size : B → Z;
  capacity : B → Z;
}.

End Base.

(** ** Sequences of calls through the interface *)

Inductive op (T : Type) : Type :=
| Read
| Write (data : T)
| Clear
| Full
| Empty
| Size
| Capacity.

Arguments Read {T}.
Arguments Write {T} data.
Arguments Clear {T}.
Arguments Full {T}.
Arguments Empty {T}.
Arguments Size {T}.
Arguments Capacity {T}.

(** What a call returns to its caller. *)
Inductive result (T : Type) : Type :=
| RRead (r : option T)
| RVoid
| RBool (b : bool)
| RSize (n : Z).

Arguments RRead {T} r.
Arguments RVoid {T}.
Arguments RBool {T} b.
Arguments RSize {T} n.

Section Calls.
Context {T B : Type} (impl : Base.RingBuffer T B).

Definition exec (o : op T) (b : B) : outcome (result T * B) :=
  match o with
  | Read => '(r, b') ← Base.read b; Done (RRead r, b')
  | Write data => b' ← Base.write data b; Done (RVoid, b')
  | Clear => Done (RVoid, Base.clear b)
  | Full => Done (RBool (Base.full b), b)
  | Empty => Done (RBool (Base.empty b), b)
  | Size => Done (RSize (Base.size b), b)
  | Capacity => Done (RSize (Base.capacity b), b)
  end.

Fixpoint run (os : list (op T)) (b : B) : outcome (list (result T) * B) :=
  match os with
  | [] => Done ([], b)
  | o :: os' =>
      '(r, b') ← exec o b;
      '(rs, b'') ← run os' b';
      Done (r :: rs, b'')
  end.

(** The results alone. *)
Definition results (os : list (op T)) (b : B) : outcome (list (result T)) :=
  fst <$> run os b.

(** [s] is the state after some sequence of calls on the object [b0]. *)
Definition reachable_from (b0 s : B) : Prop :=
  ∃ os rs, run os b0 = Done (rs, s).

End Calls.

(** ** Cursor arithmetic on a ring of [P] slots

    Both strategies advance a cursor by [(idx + 1) % P], with [P] the
    physical capacity.  [window a t n] lists the [n] slots of [a] met by a
    cursor that starts at [t] and advances [n] times: the order in which
    [read] returns them. *)

Module Ring.
Section Ring.
Context {T : Type} (P : Z).

Definition next (i : Z) : Z := SizeT.add i 1 mod P.

Fixpoint window (a : list T) (t : Z) (n : nat) : list T :=
  match n with
  | O => []
  | S n' =>
      match a !! Z.to_nat t with
      | Some x => x :: window a (next t) n'
      | None => []
      end
  end.

End Ring.
End Ring.

(** ** [GuardElemRingBuffer<T, S>]

    [Cap] is the template parameter [S], the nominal capacity. *)

Module GuardElem.

Record t (T : Type) : Type := Build {
  head : Z;       (* write idx *)
  tail : Z;       (* read idx *)
  buf : list T;   (* std::array<T, true_capacity> *)
}.

Arguments Build {T} head tail buf.
Arguments head {T} _.
Arguments tail {T} _.
Arguments buf {T} _.

Section Members.
Context {T : Type} (Cap : Z).

(** [constexpr static size_t true_capacity = S + 1]: one guard element. *)
Definition true_capacity : Z := SizeT.add Cap 1.

(** [%] is the remainder of unsigned division; its divisor
    [true_capacity] is nonzero for [Cap < SIZE_MAX]. *)
Definition idx_increment (idx : Z) : Z :=
  let new_idx := SizeT.add idx 1 in
  new_idx mod true_capacity.

(** The constructor: [head(0), tail(0), buf({})]; [dflt] is [T{}]. *)
Definition init (dflt : T) : t T :=
  Build 0 0 (replicate (Z.to_nat true_capacity) dflt).

Definition full (s : t T) : bool :=
  idx_increment (head s) =? tail s.

Definition empty (s : t T) : bool :=
  head s =? tail s.

Definition capacity (s : t T) : Z := Cap.

Definition read (s : t T) : outcome (option T * t T) :=
  if empty s then Done (None, s)
  else
    res ← StdArray.get (buf s) (tail s);
    Done (Some res, Build (head s) (idx_increment (tail s)) (buf s)).

(** The three assignments of [write], in source order. *)
Definition store (data : T) (s : t T) : outcome (t T) :=
  buf' ← StdArray.set (buf s) (head s) data;
  Done (Build (head s) (tail s) buf').

Definition move_tail (s : t T) : t T :=
  Build (head s) (idx_increment (tail s)) (buf s).

Definition move_tail_if_full (s : t T) : t T :=
  if full s then move_tail s else s.

Definition move_head (s : t T) : t T :=
  Build (idx_increment (head s)) (tail s) (buf s).

Definition write (data : T) (s : t T) : outcome (t T) :=
  s1 ← store data s;
  let s2 := move_tail_if_full s1 in
  Done (move_head s2).

Definition clear (s : t T) : t T :=
  Build (tail s) (tail s) (buf s).

Definition size (s : t T) : Z :=
  if full s then capacity s
  else if tail s <=? head s then SizeT.sub (head s) (tail s)
  else SizeT.sub (SizeT.add true_capacity (head s)) (tail s).

Definition ring_buffer : Base.RingBuffer T (t T) := {|
  Base.read := read;
  Base.write := write;
  Base.clear := clear;
  Base.full := full;
  Base.empty := empty;
  Base.size := size;
  Base.capacity := capacity;
|}.

(** Representation invariant and abstraction: the live elements are the
    [size s] slots from [tail s] on. *)
Definition wf (s : t T) : Prop :=
  0 ≤ head s < true_capacity ∧ 0 ≤ tail s < true_capacity ∧
  Z.of_nat (length (buf s)) = true_capacity.

Definition contents (s : t T) : list T :=
  Ring.window true_capacity (buf s) (tail s) (Z.to_nat (size s)).

End Members.
End GuardElem.

(** ** [FullFlagRingBuffer<T, S>] *)

Module FullFlag.

Record t (T : Type) : Type := Build {
  head : Z;       (* write idx *)
  tail : Z;       (* read idx *)
  buf : list T;   (* std::array<T, S> *)
  _full : bool;   (* full flag instead of a guard element *)
}.

Arguments Build {T} head tail buf _full.
Arguments head {T} _.
Arguments tail {T} _.
Arguments buf {T} _.
Arguments _full {T} _.

Section Members.
Context {T : Type} (Cap : Z).

(** The divisor [S] is nonzero for [1 <= Cap]. *)
Definition idx_increment (idx : Z) : Z :=
  let new_idx := SizeT.add idx 1 in
  new_idx mod Cap.

(** The constructor: [head(0), tail(0), buf({}), _full(false)]. *)
Definition init (dflt : T) : t T :=
  Build 0 0 (replicate (Z.to_nat Cap) dflt) false.

Definition full (s : t T) : bool := _full s.

Definition empty (s : t T) : bool :=
  (head s =? tail s) && negb (_full s).

Definition capacity (s : t T) : Z := Cap.

Definition read (s : t T) : outcome (option T * t T) :=
  if empty s then Done (None, s)
  else
    res ← StdArray.get (buf s) (tail s);
    Done (Some res, Build (head s) (idx_increment (tail s)) (buf s) false).

(** The four assignments of [write], in source order. *)
Definition store (data : T) (s : t T) : outcome (t T) :=
  buf' ← StdArray.set (buf s) (head s) data;
  Done (Build (head s) (tail s) buf' (_full s)).

Definition move_tail (s : t T) : t T :=
  Build (head s) (idx_increment (tail s)) (buf s) (_full s).

Definition move_tail_if_full (s : t T) : t T :=
  if full s then move_tail s else s.

Definition move_head (s : t T) : t T :=
  Build (idx_increment (head s)) (tail s) (buf s) (_full s).

Definition update_full (s : t T) : t T :=
  Build (head s) (tail s) (buf s) (head s =? tail s).

(** [_full = false]. *)
Definition reset_full (s : t T) : t T :=
  Build (head s) (tail s) (buf s) false.

Definition write (data : T) (s : t T) : outcome (t T) :=
  s1 ← store data s;
  let s2 := move_tail_if_full s1 in
  let s3 := move_head s2 in
  Done (update_full s3).

Definition clear (s : t T) : t T :=
  Build (tail s) (tail s) (buf s) false.

Definition size (s : t T) : Z :=
  if _full s then Cap
  else if tail s <=? head s then SizeT.sub (head s) (tail s)
  else SizeT.sub (SizeT.add Cap (head s)) (tail s).

Definition ring_buffer : Base.RingBuffer T (t T) := {|
  Base.read := read;
  Base.write := write;
  Base.clear := clear;
  Base.full := full;
  Base.empty := empty;
  Base.size := size;
  Base.capacity := capacity;
|}.

(** Representation invariant and abstraction: the live elements are the
    [size s] slots from [tail s] on. *)
Definition wf (s : t T) : Prop :=
  0 ≤ head s < Cap ∧ 0 ≤ tail s < Cap ∧
  Z.of_nat (length (buf s)) = Cap ∧
  (_full s = true → head s = tail s).

Definition contents (s : t T) : list T :=
  Ring.window Cap (buf s) (tail s) (Z.to_nat (size s)).

End Members.
End FullFlag.

(** ** The contract, as the specification words it

    A bounded first-in first-out queue of the live elements, oldest
    first: [write] appends and, on a full buffer, discards the oldest
    element; [read] removes the oldest; [clear] discards everything; the
    observers count the live elements. *)

Module Contract.
Section Contract.
Context {T : Type} (Cap : Z).

Definition size (q : list T) : Z := Z.of_nat (length q).

Definition full (q : list T) : bool := size q =? Cap.

Definition empty (q : list T) : bool := size q =? 0.

Definition capacity (q : list T) : Z := Cap.

Definition write (data : T) (q : list T) : list T :=
  if full q then drop 1 q ++ [data] else q ++ [data].

Definition read (q : list T) : option T * list T :=
  match q with
  | [] => (None, [])
  | x :: q' => (Some x, q')
  end.

Definition clear (q : list T) : list T := [].

Definition ring_buffer : Base.RingBuffer T (list T) := {|
  Base.read := λ q, Done (read q);
  Base.write := λ data q, Done (write data q);
  Base.clear := clear;
  Base.full := full;
  Base.empty := empty;
  Base.size := size;
  Base.capacity := capacity;
|}.

(** The last [Cap] elements of a list of written values. *)
Definition newest (l : list T) : list T :=
  drop (length l - Z.to_nat Cap) l.

(** The state change of each call. *)
Definition step (q : list T) (o : op T) : list T :=
  match o with
  | Read => snd (read q)
  | Write data => write data q
  | Clear => clear q
  | _ => q
  end.

(** The elements written, not yet consumed and not discarded after the
    calls [os] on a new buffer. *)
Definition survivors (os : list (op T)) : list T :=
  fold_left step os [].

End Contract.
End Contract.

(** ** Calls from several threads

    The bodies of the member functions, statement by statement, as
    programs of atomic actions on the shared object, run by threads that
    a scheduler interleaves.

    Every member function starts with the statement
    [std::scoped_lock (this->acces_mutex);].  Its operand is not a
    declarator, so the statement is an expression statement: it constructs
    an unnamed [std::scoped_lock] (which locks [acces_mutex]) and destroys
    it at the end of that same statement (which unlocks it).  It is the
    pair [ALock; AUnlock].  [read], [write] and [size] call the public
    [empty()] and [full()], which start with the same statement. *)

Module Concurrent.

Inductive action (T B : Type) : Type :=
| ALock                          (* constructor of the scoped_lock temporary *)
| AUnlock                        (* its destructor *)
| ATest (cond : B → bool)        (* evaluate the condition of an [if] *)
| AReturnIf                      (* [return {}] when the condition held *)
| AAssign (f : B → outcome B)    (* an assignment to the object's fields *)
| AAssignIf (f : B → outcome B)  (* the same, when the condition held *)
| ALoad (g : B → outcome T).     (* [T res = ...] *)

Arguments ALock {T B}.
Arguments AUnlock {T B}.
Arguments ATest {T B} cond.
Arguments AReturnIf {T B}.
Arguments AAssign {T B} f.
Arguments AAssignIf {T B} f.
Arguments ALoad {T B} g.

(** A thread inside a call: the statements left to execute, the value of
    the last condition and the value to return. *)
Record thread (T B : Type) : Type := Thread {
  code : list (action T B);
  flag : bool;
  res : option T;
}.

Arguments Thread {T B} code flag res.
Arguments code {T B} _.
Arguments flag {T B} _.
Arguments res {T B} _.

(** The shared object, the owner of [acces_mutex] if it is locked, and
    the threads. *)
Record config (T B : Type) : Type := Config {
  shared : B;
  mutex : option nat;
  threads : list (thread T B);
}.

Arguments Config {T B} shared mutex threads.
Arguments shared {T B} _.
Arguments mutex {T B} _.
Arguments threads {T B} _.

Section Semantics.
Context {T B : Type}.

(** A thread about to make a call. *)
Definition call (p : list (action T B)) : thread T B := Thread p false None.

(** One action of thread [tid].  [None]: the thread cannot move (it has
    returned, it waits for the mutex, or the action is undefined). *)
Definition step (tid : nat) (c : config T B) : option (config T B) :=
  th ← threads c !! tid;
  match code th with
  | [] => None
  | a :: rest =>
      let continue b m fl r :=
        Some (Config b m (<[tid := Thread rest fl r]> (threads c))) in
      match a with
      | ALock =>
          match mutex c with
          | None => continue (shared c) (Some tid) (flag th) (res th)
          | Some _ => None
          end
      | AUnlock => continue (shared c) None (flag th) (res th)
      | ATest cond => continue (shared c) (mutex c) (cond (shared c)) (res th)
      | AReturnIf =>
          if flag th then
            Some (Config (shared c) (mutex c)
                    (<[tid := Thread [] (flag th) (res th)]> (threads c)))
          else continue (shared c) (mutex c) (flag th) (res th)
      | AAssign f =>
          match f (shared c) with
          | Done b => continue b (mutex c) (flag th) (res th)
          | Undefined => None
          end
      | AAssignIf f =>
          if flag th then
            match f (shared c) with
            | Done b => continue b (mutex c) (flag th) (res th)
            | Undefined => None
            end
          else continue (shared c) (mutex c) (flag th) (res th)
      | ALoad g =>
          match g (shared c) with
          | Done x => continue (shared c) (mutex c) (flag th) (Some x)
          | Undefined => None
          end
      end
  end.

(** The threads move in the order the schedule gives. *)
Fixpoint run_schedule (sched : list nat) (c : config T B)
  : option (config T B) :=
  match sched with
  | [] => Some c
  | tid :: sched' => c' ← step tid c; run_schedule sched' c'
  end.

(** Whether every access to the object in [p] happens with the mutex
    held, [held] telling whether it is held on entry. *)
Fixpoint locked_throughout (held : bool) (p : list (action T B)) : bool :=
  match p with
  | [] => true
  | ALock :: p' => locked_throughout true p'
  | AUnlock :: p' => locked_throughout false p'
  | AReturnIf :: p' => locked_throughout held p'
  | _ :: p' => held && locked_throughout held p'
  end.

End Semantics.

(** The member functions.  [lock_statement] is
    [std::scoped_lock (this->acces_mutex);]. *)

Definition lock_statement {T B : Type} : list (action T B) :=
  [ALock; AUnlock].

Section GuardElemPrograms.
Context {T : Type} (Cap : Z).

Definition guard_full : list (action T (GuardElem.t T)) :=
  lock_statement ++ [ATest (GuardElem.full Cap)].

Definition guard_empty : list (action T (GuardElem.t T)) :=
  lock_statement ++ [ATest GuardElem.empty].

Definition guard_write (data : T) : list (action T (GuardElem.t T)) :=
  lock_statement
  ++ [AAssign (GuardElem.store data)]
  ++ guard_full
  ++ [AAssignIf (λ s, Done (GuardElem.move_tail Cap s));
      AAssign (λ s, Done (GuardElem.move_head Cap s))].

Definition guard_read : list (action T (GuardElem.t T)) :=
  lock_statement
  ++ guard_empty
  ++ [AReturnIf;
      ALoad (λ s, StdArray.get (GuardElem.buf s) (GuardElem.tail s));
      AAssign (λ s, Done (GuardElem.move_tail Cap s))].

End GuardElemPrograms.

Section FullFlagPrograms.
Context {T : Type} (Cap : Z).

Definition flag_full : list (action T (FullFlag.t T)) :=
  lock_statement ++ [ATest FullFlag.full].

Definition flag_empty : list (action T (FullFlag.t T)) :=
  lock_statement ++ [ATest FullFlag.empty].

Definition flag_write (data : T) : list (action T (FullFlag.t T)) :=
  lock_statement
  ++ [AAssign (FullFlag.store data)]
  ++ flag_full
  ++ [AAssignIf (λ s, Done (FullFlag.move_tail Cap s));
      AAssign (λ s, Done (FullFlag.move_head Cap s));
      AAssign (λ s, Done (FullFlag.update_full s))].

Definition flag_read : list (action T (FullFlag.t T)) :=
  lock_statement
  ++ flag_empty
  ++ [AReturnIf;
      ALoad (λ s, StdArray.get (FullFlag.buf s) (FullFlag.tail s));
      AAssign (λ s, Done (FullFlag.move_tail Cap s));
      AAssign (λ s, Done (FullFlag.reset_full s))].

End FullFlagPrograms.

(** A body that kept the mutex from its first statement to its return,
    as a named [std::scoped_lock] would: the write of the guard-element
    buffer under that discipline, the call to [full()] included. *)
Definition guard_write_holding {T : Type} (Cap : Z) (data : T)
  : list (action T (GuardElem.t T)) :=
  [ALock; AAssign (GuardElem.store data)]
  ++ guard_full Cap
  ++ [AAssignIf (λ s, Done (GuardElem.move_tail Cap s));
      AAssign (λ s, Done (GuardElem.move_head Cap s));
      AUnlock].

Definition to_option {A : Type} (o : outcome A) : option A :=
  match o with Done a => Some a | Undefined => None end.

(** Two threads share a buffer of capacity 2: both call [write] on a new
    buffer, or both call [read] on a buffer that holds 1 and 2. *)

Definition two_guard_writers : config Z (GuardElem.t Z) :=
  Config (GuardElem.init 2 0) None
    [call (guard_write 2 1); call (guard_write 2 2)].

Definition two_flag_writers : config Z (FullFlag.t Z) :=
  Config (FullFlag.init 2 0) None
    [call (flag_write 2 1); call (flag_write 2 2)].

Definition two_guard_readers : config Z (GuardElem.t Z) :=
  Config (GuardElem.Build 2 0 [1; 2; 0]) None
    [call (guard_read 2); call (guard_read 2)].

End Concurrent.

(** ** The scenario of the test harness ([ring_buf_test] in [main.cpp])

    Write the values [vs], ask for [size()] and [full()], read [n] times,
    then ask for [empty()] and [size()]. *)

Definition fill_report_drain {T : Type} (vs : list T) (n : nat) : list (op T) :=
  map Write vs ++ [Size; Full] ++ replicate n Read ++ [Empty; Size].

(** What the scenario returns when [live] are the elements that survive
    the writes. *)
Definition fill_report_drain_results {T : Type} (Cap : Z) (vs live : list T)
  : list (result T) :=
  replicate (length vs) RVoid
  ++ [RSize (Z.of_nat (length live)); RBool (Z.of_nat (length live) =? Cap)]
  ++ map (λ v, RRead (Some v)) live
  ++ [RBool true; RSize 0].

(** ** The single-threaded part of [ring_buf_test] ([main.cpp])

    The test is written against [BaseRingBuffer<int>].  An [int] is a
    32-bit signed integer; [ring_buf.write(i)] converts the [size_t]
    counter [i] to [int], and [elem.value() == (i + expected_offset)]
    compares in [size_t].  A failed [assert] aborts the test. *)

Module Harness.

Definition INT_MAX : Z := 2 ^ 31 - 1.

(** [size_t] to [int]: the value modulo [2^32], in [-2^31, 2^31). *)
Definition to_int (x : Z) : Z := (x + 2 ^ 31) mod 2 ^ 32 - 2 ^ 31.

(** [int] to [size_t]. *)
Definition to_size_t (x : Z) : Z := SizeT.wrap x.

(** The assertions of the test, by their message. *)
Inductive assertion : Type :=
| SizeOverMaxCapacity   (* "Ring buffer size over max capacity!" *)
| SizeIsWrong           (* "Ring buffer size is wrong!" *)
| NoValueReturned       (* "Ring buffer should return value if it is not empty!" *)
| WrongValueReturned    (* "Ring buffer returned wrong value!" *)
| NotEmptyAfterReads    (* "Ring buffer should be empty after reading all elements!" *)
| WrongNumberOfReads    (* "Did not read expected number of enteries from read buffer!" *)
| NotEmptyAfterClear.   (* "Ring buffer should be empty after a clear!" *)

(** How a run of the test ends: it goes on with a value, an assertion
    fails, the program has undefined behaviour, or a loop is still
    running when the fuel is spent. *)
Inductive verdict (A : Type) : Type :=
| Pass (a : A)
| Failed (which : assertion)
| Crashed
| StillRunning.

Arguments Pass {A} a.
Arguments Failed {A} which.
Arguments Crashed {A}.
Arguments StillRunning {A}.

Definition and_then {A C : Type} (v : verdict A) (k : A → verdict C)
  : verdict C :=
  match v with
  | Pass a => k a
  | Failed which => Failed which
  | Crashed => Crashed
  | StillRunning => StillRunning
  end.

Definition lift {A : Type} (o : outcome A) : verdict A :=
  match o with Done a => Pass a | Undefined => Crashed end.

Section Test.
Context {B : Type} (ring_buf : Base.RingBuffer Z B).

(** [for (size_t i = ...; i < nro_entries_to_write; ++i) ring_buf.write(i);]
    with [n] iterations left. *)
Fixpoint write_loop (n : nat) (i : Z) (b : B) : outcome B :=
  match n with
  | O => Done b
  | S n' =>
      b' ← Base.write (to_int i) b;
      write_loop n' (SizeT.add i 1) b'
  end.

(** [write_helper(nro_entries_to_write)], not multithreaded; the test's
    state is the buffer and the flag [writer_done]. *)
Definition write_helper (nro_entries_to_write : Z) (st : B * bool)
  : verdict (B * bool) :=
  and_then (lift (write_loop (Z.to_nat nro_entries_to_write) 0 (fst st)))
    (λ b,
       if Base.capacity b <? Base.size b then Failed SizeOverMaxCapacity
       else if negb (Base.size b
                     =? Z.min nro_entries_to_write (Base.capacity b))
       then Failed SizeIsWrong
       else Pass (b, true)).

(** [for (size_t i = ...; !(writer_done && ring_buf.empty()); ++i)] of
    [read_helper]; the result is [entries_read] and the buffer. *)
Fixpoint read_loop (fuel : nat) (expected_offset : Z) (writer_done : bool)
    (i entries_read : Z) (b : B) : verdict (Z * B) :=
  if writer_done && Base.empty b then Pass (entries_read, b)
  else
    match fuel with
    | O => StillRunning
    | S fuel' =>
        and_then (lift (Base.read b))
          (λ '(elem, b'),
             match elem with
             | None => Failed NoValueReturned
             | Some value =>
                 if to_size_t value
                    =? SizeT.add i (to_size_t expected_offset)
                 then read_loop fuel' expected_offset writer_done
                        (SizeT.add i 1) (SizeT.add entries_read 1) b'
                 else Failed WrongValueReturned
             end)
    end.

(** [read_helper(expected_nro_reads, expected_offset)], not
    multithreaded. *)
Definition read_helper (fuel : nat) (expected_nro_reads expected_offset : Z)
    (st : B * bool) : verdict (B * bool) :=
  and_then (read_loop fuel expected_offset (snd st) 0 0 (fst st))
    (λ '(entries_read, b),
       if negb (Base.empty b) then Failed NotEmptyAfterReads
       else if negb (entries_read =? expected_nro_reads)
       then Failed WrongNumberOfReads
       else Pass (b, false)).

(** The statements of [ring_buf_test] up to "Parallel read and write". *)
Definition ring_buf_test_sequential (fuel : nat) (b0 : B) : verdict B :=
  let st0 := (b0, false) in
  and_then (write_helper (SizeT.add (Base.capacity (fst st0)) 1) st0) (λ st1,
  and_then (read_helper fuel (Base.size (fst st1)) 1 st1) (λ st2,
  and_then (write_helper (SizeT.add (Base.capacity (fst st2)) 10) st2) (λ st3,
  and_then (read_helper fuel (Base.size (fst st3)) 10 st3) (λ st4,
  and_then (write_helper (Base.capacity (fst st4)) st4) (λ st5,
  and_then (read_helper fuel (Base.size (fst st5)) 0 st5) (λ st6,
  and_then (write_helper (SizeT.sub (Base.capacity (fst st6)) 1) st6) (λ st7,
  and_then (read_helper fuel (Base.size (fst st7)) 0 st7) (λ st8,
  and_then (lift (Base.write 1 (fst st8))) (λ b9,
  let b10 := Base.clear b9 in
  if Base.empty b10 then Pass b10 else Failed NotEmptyAfterClear))))))))).

End Test.
End Harness.

(** ** [BufferWriter<int>::pattern_write] ([main.cpp])

    [for (size_t i = seed; i < 10 + seed; ++i) buf->write(i);] with the
    [int] parameter [seed]; the pause after each write does not act on
    the buffer.  [10 + seed] is an [int] sum, whose overflow is undefined;
    the comparison and the counter are [size_t]. *)

Module BufferWriter.

Definition INT_MIN : Z := - 2 ^ 31.

(** [a + b] on [int]. *)
Definition int_add (a b : Z) : outcome Z :=
  if (INT_MIN <=? a + b) && (a + b <=? Harness.INT_MAX) then Done (a + b)
  else Undefined.

Section Writer.
Context {B : Type} (buf : Base.RingBuffer Z B).

Fixpoint pattern_loop (fuel : nat) (i bound : Z) (b : B) : Harness.verdict B :=
  if i <? bound then
    match fuel with
    | O => Harness.StillRunning
    | S fuel' =>
        Harness.and_then (Harness.lift (Base.write (Harness.to_int i) b))
          (λ b', pattern_loop fuel' (SizeT.add i 1) bound b')
    end
  else Harness.Pass b.

Definition pattern_write (fuel : nat) (seed : Z) (b : B) : Harness.verdict B :=
  Harness.and_then (Harness.lift (int_add 10 seed))
    (λ sum,
       pattern_loop fuel (Harness.to_size_t seed) (Harness.to_size_t sum) b).

End Writer.
End BufferWriter.

(** ** Refinement of the contract by an implementation

    [contents] maps each state satisfying [wf] to the queue of its live
    elements; every member function then does what the contract says on
    that queue, without undefined behaviour. *)

Record refinement {T B : Type} (impl : Base.RingBuffer T B) (Cap : Z)
    (wf : B → Prop) (contents : B → list T) : Prop := {
  ref_read : ∀ s, wf s →
    ∃ s', Base.read s = Done (fst (Contract.read (contents s)), s') ∧
          wf s' ∧ contents s' = snd (Contract.read (contents s));
  ref_write : ∀ data s, wf s →
    ∃ s', Base.write data s = Done s' ∧
          wf s' ∧ contents s' = Contract.write Cap data (contents s);
  ref_clear : ∀ s, wf s →
    wf (Base.clear s) ∧ contents (Base.clear s) = [];
  ref_full : ∀ s, wf s → Base.full s = Contract.full Cap (contents s);
  ref_empty : ∀ s, wf s → Base.empty s = Contract.empty (contents s);
  ref_size : ∀ s, wf s → Base.size s = Contract.size (contents s);
  ref_capacity : ∀ s, Base.capacity s = Cap;
  ref_bound : ∀ s, wf s → Contract.size (contents s) ≤ Cap;
}.

(* ================================================================= *)
(** * Properties *)

(** Case analysis on every integer comparison of the goal. *)
Ltac split_tests :=
  repeat match goal with
  | |- context [?a =? ?b] => destruct (Z.eqb_spec a b)
  | |- context [?a <=? ?b] => destruct (Z.leb_spec a b)
  | |- context [?a <? ?b] => destruct (Z.ltb_spec a b)
  | H : context [?a =? ?b] |- _ => destruct (Z.eqb_spec a b)
  | H : context [?a <=? ?b] |- _ => destruct (Z.leb_spec a b)
  | H : context [?a <? ?b] |- _ => destruct (Z.ltb_spec a b)
  end.

(** ** [size_t] arithmetic *)

Module SizeTFacts.
Import SizeT.

Lemma modulus_pos : 0 < modulus.
Proof. reflexivity. Qed.

Lemma wrap_small x : 0 ≤ x < modulus → wrap x = x.
Proof. intros Hx. unfold wrap. apply Z.mod_small. exact Hx. Qed.

Lemma add_small a b : 0 ≤ a + b < modulus → add a b = a + b.
Proof. apply wrap_small. Qed.

Lemma sub_small a b : 0 ≤ a - b < modulus → sub a b = a - b.
Proof. apply wrap_small. Qed.

(** [(x + a) - b] computed in [size_t] is exact whenever the mathematical
    result fits, even if the intermediate sum overflowed. *)
Lemma sub_add_exact x a b :
  0 ≤ x + a - b < modulus → sub (add x a) b = x + a - b.
Proof.
  intros Hr. unfold sub, add, wrap.
  rewrite Zminus_mod_idemp_l. apply Z.mod_small. exact Hr.
Qed.

End SizeTFacts.

(** ** [std::array] accesses in bounds are defined *)

Module StdArrayFacts.
Section Array.
Context {T : Type}.
Implicit Types (a : list T) (i : Z).

Lemma in_bounds_true a i :
  0 ≤ i < Z.of_nat (length a) → StdArray.in_bounds a i = true.
Proof.
  intros [H0 H1]. unfold StdArray.in_bounds.
  apply andb_true_intro. split; [apply Z.leb_le | apply Z.ltb_lt]; assumption.
Qed.

Lemma set_in_bounds a i x :
  0 ≤ i < Z.of_nat (length a) →
  StdArray.set a i x = Done (<[Z.to_nat i := x]> a).
Proof.
  intros H. unfold StdArray.set. rewrite in_bounds_true; [reflexivity | exact H].
Qed.

Lemma get_lookup a i x :
  0 ≤ i → a !! Z.to_nat i = Some x → StdArray.get a i = Done x.
Proof.
  intros H0 Hl. unfold StdArray.get.
  rewrite in_bounds_true, Hl; [reflexivity |].
  apply lookup_lt_Some in Hl. lia.
Qed.

Lemma lookup_in_bounds a i :
  0 ≤ i < Z.of_nat (length a) → ∃ x, a !! Z.to_nat i = Some x.
Proof.
  intros H. destruct (lookup_lt_is_Some_2 a (Z.to_nat i)) as [x Hx]; [lia|].
  exists x. exact Hx.
Qed.

End Array.
End StdArrayFacts.

(** ** Cursors and windows *)

Module RingFacts.
Section Ring.
Context {T : Type} (P : Z).
Hypothesis P_range : 1 ≤ P ≤ SizeT.SIZE_MAX.
Implicit Types (a : list T) (i t h : Z) (n : nat).

Lemma P_lt_modulus : P < SizeT.modulus.
Proof. pose proof P_range as Hp. unfold SizeT.SIZE_MAX in Hp. lia. Qed.

Lemma next_eq i :
  0 ≤ i < P → Ring.next P i = if i + 1 =? P then 0 else i + 1.
Proof.
  intros Hi. unfold Ring.next.
  rewrite SizeTFacts.add_small by (pose proof P_lt_modulus; lia).
  destruct (Z.eqb_spec (i + 1) P) as [->|Hne].
  - apply Z_mod_same_full.
  - apply Z.mod_small. lia.
Qed.

Lemma next_range i : 0 ≤ i < P → 0 ≤ Ring.next P i < P.
Proof.
  intros Hi. rewrite next_eq by exact Hi.
  destruct (Z.eqb_spec (i + 1) P); lia.
Qed.

Lemma next_mod i : 0 ≤ i < P → Ring.next P i = (i + 1) mod P.
Proof.
  intros Hi. unfold Ring.next.
  rewrite SizeTFacts.add_small by (pose proof P_lt_modulus; lia).
  reflexivity.
Qed.

Lemma next_shift t k :
  0 ≤ t < P → (Ring.next P t + k) mod P = (t + (k + 1)) mod P.
Proof.
  intros Ht. rewrite next_mod by exact Ht.
  rewrite Zplus_mod_idemp_l. f_equal. lia.
Qed.

(** Reduction of a sum of a cursor and an offset below [P]. *)
Lemma offset_eq t k :
  0 ≤ t < P → 0 ≤ k < P →
  (t + k) mod P = if t + k <? P then t + k else t + k - P.
Proof.
  intros Ht Hk. destruct (Z.ltb_spec (t + k) P) as [Hlt|Hge].
  - apply Z.mod_small. lia.
  - transitivity ((t + k - P + 1 * P) mod P); [f_equal; lia|].
    rewrite Z_mod_plus_full. apply Z.mod_small. lia.
Qed.

Lemma offset_range t k : (t + k) mod P < P ∧ 0 ≤ (t + k) mod P.
Proof. pose proof (Z.mod_pos_bound (t + k) P). lia. Qed.

Lemma offset_ne t k :
  0 ≤ t < P → 1 ≤ k < P → (t + k) mod P ≠ t.
Proof.
  intros Ht Hk. rewrite offset_eq by lia.
  destruct (Z.ltb_spec (t + k) P); lia.
Qed.

Lemma window_length a t n :
  Z.of_nat (length a) = P → 0 ≤ t < P →
  length (Ring.window P a t n) = n.
Proof.
  intros Hlen. revert t. induction n as [|n IH]; intros t Ht; simpl.
  - reflexivity.
  - destruct (StdArrayFacts.lookup_in_bounds a t) as [x ->]; [lia|].
    simpl. rewrite IH; [reflexivity | apply next_range; exact Ht].
Qed.

(** A store in the slot just after the window extends it. *)
Lemma window_snoc a t n x :
  Z.of_nat (length a) = P → 0 ≤ t < P → Z.of_nat n < P →
  Ring.window P (<[Z.to_nat ((t + Z.of_nat n) mod P) := x]> a) t (S n)
  = Ring.window P a t n ++ [x].
Proof.
  intros Hlen. revert t. induction n as [|n IH]; intros t Ht Hn.
  - simpl. rewrite Z.add_0_r, Z.mod_small by lia.
    rewrite list_lookup_insert_eq by lia. reflexivity.
  - change (Ring.window P ?b t (S (S n)))
      with (match b !! Z.to_nat t with
            | Some y => y :: Ring.window P b (Ring.next P t) (S n)
            | None => []
            end).
    rewrite list_lookup_insert_ne.
    2:{ pose proof (offset_ne t (Z.of_nat (S n)) Ht ltac:(lia)).
        pose proof (offset_range t (Z.of_nat (S n))). lia. }
    simpl Ring.window at 2.
    destruct (StdArrayFacts.lookup_in_bounds a t) as [y ->]; [lia|].
    simpl. f_equal.
    replace ((t + Z.of_nat (S n)) mod P)
      with ((Ring.next P t + Z.of_nat n) mod P).
    + apply IH; [apply next_range; exact Ht | lia].
    + rewrite next_shift by exact Ht. f_equal. lia.
Qed.

(** Advancing the cursor drops the first slot of the window. *)
Lemma window_drop a t n :
  Z.of_nat (length a) = P → 0 ≤ t < P →
  Ring.window P a (Ring.next P t) n = drop 1 (Ring.window P a t (S n)).
Proof.
  intros Hlen Ht. simpl.
  destruct (StdArrayFacts.lookup_in_bounds a t) as [y ->]; [lia|]. reflexivity.
Qed.

Lemma window_cons a t n :
  Z.of_nat (length a) = P → 0 ≤ t < P →
  ∃ y, a !! Z.to_nat t = Some y ∧
       Ring.window P a t (S n) = y :: Ring.window P a (Ring.next P t) n.
Proof.
  intros Hlen Ht. simpl.
  destruct (StdArrayFacts.lookup_in_bounds a t) as [y Hy]; [lia|].
  exists y. rewrite Hy. split; reflexivity.
Qed.

End Ring.
End RingFacts.

(** Stores at the write cursor, in terms of the window of live slots. *)

Module WindowFacts.
Section Window.
Context {T : Type} (P : Z).
Hypothesis P_range : 1 ≤ P ≤ SizeT.SIZE_MAX.
Implicit Types (a : list T) (t h : Z) (n : nat).

(** The buffer is not full: the window grows by the stored element. *)
Lemma store_grows a t h n x :
  Z.of_nat (length a) = P → 0 ≤ t < P → Z.of_nat n < P →
  h = (t + Z.of_nat n) mod P →
  Ring.window P (<[Z.to_nat h := x]> a) t (S n) = Ring.window P a t n ++ [x].
Proof.
  intros Hlen Ht Hn ->. apply RingFacts.window_snoc; assumption.
Qed.

(** The buffer is full: with the read cursor advanced, the window loses
    its oldest element and gains the stored one. *)
Lemma store_slides a t h n x :
  Z.of_nat (length a) = P → 0 ≤ t < P → 1 ≤ Z.of_nat n ≤ P →
  h = (t + Z.of_nat n) mod P →
  Ring.window P (<[Z.to_nat h := x]> a) (Ring.next P t) n
  = drop 1 (Ring.window P a t n) ++ [x].
Proof.
  intros Hlen Ht Hn ->. destruct n as [|m]; [lia|].
  rewrite <- (RingFacts.window_drop P a t m Hlen Ht).
  replace ((t + Z.of_nat (S m)) mod P)
    with ((Ring.next P t + Z.of_nat m) mod P).
  - apply RingFacts.window_snoc; [assumption.. | | lia].
    apply RingFacts.next_range; assumption.
  - rewrite RingFacts.next_shift by assumption. f_equal. lia.
Qed.

End Window.
End WindowFacts.

(** ** Sequences of calls *)

Module CallFacts.
Section Calls.
Context {T B : Type} (impl : Base.RingBuffer T B).

Lemma run_app os1 os2 b rs1 b1 :
  run impl os1 b = Done (rs1, b1) →
  run impl (os1 ++ os2) b =
    ('(rs2, b2) ← run impl os2 b1; Done (rs1 ++ rs2, b2)).
Proof.
  revert b rs1 b1.
  induction os1 as [|o os1 IH]; intros b rs1 b1 Hrun; simpl in *.
  - injection Hrun as <- <-. destruct (run impl os2 b) as [[rs2 b2]|]; reflexivity.
  - destruct (exec impl o b) as [[r b']|]; simpl in *; [|discriminate].
    destruct (run impl os1 b') as [[rs b'']|] eqn:Hrest; simpl in *; [|discriminate].
    injection Hrun as <- <-.
    rewrite (IH _ _ _ Hrest).
    destruct (run impl os2 b'') as [[rs2 b2]|]; reflexivity.
Qed.

Lemma run_snoc os o b rs1 b1 r b2 :
  run impl os b = Done (rs1, b1) →
  exec impl o b1 = Done (r, b2) →
  run impl (os ++ [o]) b = Done (rs1 ++ [r], b2).
Proof.
  intros Hrun Hexec. rewrite (run_app _ _ _ _ _ Hrun). simpl.
  rewrite Hexec. reflexivity.
Qed.

Lemma reachable_refl b : reachable_from impl b b.
Proof. exists [], []. reflexivity. Qed.

Lemma reachable_step b s o r s' :
  reachable_from impl b s → exec impl o s = Done (r, s') →
  reachable_from impl b s'.
Proof.
  intros (os & rs & Hrun) Hexec. exists (os ++ [o]), (rs ++ [r]).
  eapply run_snoc; eassumption.
Qed.

End Calls.
End CallFacts.

(** ** The contract on its own *)

Module ContractFacts.
Section Contract.
Context {T : Type} (Cap : Z).
Hypothesis Cap_pos : 1 ≤ Cap.
Implicit Types (q l vs : list T) (os : list (op T)).

Local Abbreviation contract := (Contract.ring_buffer (T:=T) Cap).
Local Abbreviation keep := (Contract.newest (T:=T) Cap).

Lemma keep_all l : Z.of_nat (length l) ≤ Cap → keep l = l.
Proof.
  intros H. unfold Contract.newest.
  replace (length l - Z.to_nat Cap)%nat with 0%nat by lia. reflexivity.
Qed.

Lemma keep_length l : Z.of_nat (length (keep l)) ≤ Cap.
Proof. unfold Contract.newest. rewrite length_drop. lia. Qed.

Lemma keep_length_full l :
  Cap ≤ Z.of_nat (length l) → Z.of_nat (length (keep l)) = Cap.
Proof. intros H. unfold Contract.newest. rewrite length_drop. lia. Qed.

Lemma write_keep data q :
  Z.of_nat (length q) ≤ Cap → Contract.write Cap data q = keep (q ++ [data]).
Proof.
  intros Hq. unfold Contract.write, Contract.full, Contract.size, Contract.newest.
  rewrite length_app. simpl.
  destruct (Z.eqb_spec (Z.of_nat (length q)) Cap) as [Heq|Hne].
  - replace (length q + 1 - Z.to_nat Cap)%nat with 1%nat by lia.
    rewrite drop_app_le by lia. reflexivity.
  - replace (length q + 1 - Z.to_nat Cap)%nat with 0%nat by lia. reflexivity.
Qed.

Lemma keep_snoc l x : keep (keep l ++ [x]) = keep (l ++ [x]).
Proof.
  destruct (Z.le_gt_cases (Z.of_nat (length l)) Cap) as [Hle|Hgt].
  - rewrite (keep_all l Hle). reflexivity.
  - unfold Contract.newest. rewrite !length_app, length_drop. simpl.
    replace (length l - (length l - Z.to_nat Cap) + 1 - Z.to_nat Cap)%nat
      with 1%nat by lia.
    rewrite !drop_app_le by (rewrite ?length_drop; lia).
    rewrite drop_drop. f_equal. f_equal. lia.
Qed.

(** The contract never runs into undefined behaviour; its final state is
    the fold of the state changes. *)
Lemma run_total os q :
  ∃ rs, run contract os q = Done (rs, fold_left (Contract.step Cap) os q).
Proof.
  revert q. induction os as [|o os IH]; intros q.
  - exists []. reflexivity.
  - destruct (IH (Contract.step Cap q o)) as [rs Hrs].
    destruct o; simpl in *; try (rewrite Hrs; eexists; reflexivity).
    destruct (Contract.read q) as [r q']. simpl in *.
    rewrite Hrs. eexists; reflexivity.
Qed.

Lemma run_survivors os rs q :
  run contract os [] = Done (rs, q) → q = Contract.survivors Cap os.
Proof.
  intros Hrun. destruct (run_total os []) as [rs' Hrs].
  rewrite Hrs in Hrun. injection Hrun as _ <-. reflexivity.
Qed.

(** A run of writes keeps the last [Cap] values. *)
Lemma run_writes vs l :
  run contract (map Write vs) (keep l) =
    Done (replicate (length vs) RVoid, keep (l ++ vs)).
Proof.
  revert l. induction vs as [|v vs IH]; intros l; simpl.
  - rewrite app_nil_r. reflexivity.
  - rewrite write_keep by apply keep_length. rewrite keep_snoc.
    rewrite IH. simpl. rewrite <- app_assoc. reflexivity.
Qed.

(** Draining returns the live elements, oldest first. *)
Lemma run_reads q :
  run contract (replicate (length q) Read) q =
    Done (map (λ v, RRead (Some v)) q, []).
Proof.
  induction q as [|x q IH]; simpl; [reflexivity|].
  rewrite IH. reflexivity.
Qed.

Lemma newest_nil : keep [] = [].
Proof. apply keep_all. simpl. lia. Qed.

(** The scenario on the contract: the newest [Cap] values survive. *)
Lemma fill_report_drain_contract vs :
  results contract (fill_report_drain vs (length (keep vs))) [] =
    Done (fill_report_drain_results Cap vs (keep vs)).
Proof.
  unfold results, fill_report_drain, fill_report_drain_results.
  pose proof (run_writes vs []) as Hw. rewrite newest_nil in Hw. simpl in Hw.
  rewrite (CallFacts.run_app contract _ _ _ _ _ Hw).
  cbn [app run exec mbind outcome_bind Base.size Base.full
       Contract.ring_buffer].
  rewrite (CallFacts.run_app contract _ _ _ _ _ (run_reads (keep vs))).
  simpl. reflexivity.
Qed.

End Contract.
End ContractFacts.

(** ** What every refinement of the contract satisfies *)

Module RefinementFacts.
Section Refinement.
Context {T B : Type} (impl : Base.RingBuffer T B) (Cap : Z).
Context (wf : B → Prop) (contents : B → list T).
Hypothesis Cap_pos : 1 ≤ Cap.
Hypothesis R : refinement impl Cap wf contents.
Implicit Types (s : B) (os : list (op T)).

Local Abbreviation contract := (Contract.ring_buffer (T:=T) Cap).

Lemma exec_refines o s :
  wf s →
  ∃ r s', exec impl o s = Done (r, s') ∧ wf s' ∧
          exec contract o (contents s) = Done (r, contents s').
Proof.
  intros Hwf. destruct o; simpl.
  - destruct (ref_read _ _ _ _ R s Hwf) as (s' & -> & Hwf' & Hc). simpl.
    exists (RRead (fst (Contract.read (contents s)))), s'.
    rewrite Hc. destruct (Contract.read (contents s)). auto.
  - destruct (ref_write _ _ _ _ R data s Hwf) as (s' & -> & Hwf' & Hc). simpl.
    exists RVoid, s'. rewrite Hc. auto.
  - destruct (ref_clear _ _ _ _ R s Hwf) as (Hwf' & Hc).
    exists RVoid, (Base.clear s). rewrite Hc. auto.
  - rewrite (ref_full _ _ _ _ R s Hwf). eauto.
  - rewrite (ref_empty _ _ _ _ R s Hwf). eauto.
  - rewrite (ref_size _ _ _ _ R s Hwf). eauto.
  - rewrite (ref_capacity _ _ _ _ R s). eauto.
Qed.

Lemma run_refines os s :
  wf s →
  ∃ rs s', run impl os s = Done (rs, s') ∧ wf s' ∧
           run contract os (contents s) = Done (rs, contents s').
Proof.
  revert s. induction os as [|o os IH]; intros s Hwf; simpl.
  - exists [], s. auto.
  - destruct (exec_refines o s Hwf) as (r & s1 & -> & Hwf1 & ->). simpl.
    destruct (IH s1 Hwf1) as (rs & s2 & -> & Hwf2 & ->). simpl.
    exists (r :: rs), s2. auto.
Qed.

(** The implementation returns what the contract returns. *)
Lemma results_refines os s :
  wf s → results impl os s = results contract os (contents s).
Proof.
  intros Hwf. unfold results.
  destruct (run_refines os s Hwf) as (rs & s' & -> & _ & ->). reflexivity.
Qed.

Lemma reachable_wf s0 s : wf s0 → reachable_from impl s0 s → wf s.
Proof.
  intros Hwf (os & rs & Hrun).
  destruct (run_refines os s0 Hwf) as (rs' & s' & Hrun' & Hwf' & _).
  rewrite Hrun' in Hrun. injection Hrun as _ <-. exact Hwf'.
Qed.

(** After the calls [os] on a new buffer, the live elements are the
    survivors of [os]. *)
Lemma run_contents os s0 rs s :
  wf s0 → contents s0 = [] → run impl os s0 = Done (rs, s) →
  wf s ∧ contents s = Contract.survivors Cap os.
Proof.
  intros Hwf H0 Hrun.
  destruct (run_refines os s0 Hwf) as (rs' & s' & Hrun' & Hwf' & Hc).
  rewrite Hrun' in Hrun. injection Hrun as -> ->. split; [exact Hwf'|].
  rewrite H0 in Hc. eapply ContractFacts.run_survivors. exact Hc.
Qed.

(** The scenario on a new buffer. *)
Lemma fill_report_drain_refines vs s0 :
  wf s0 → contents s0 = [] →
  results impl
    (fill_report_drain vs (length (Contract.newest Cap vs))) s0 =
    Done (fill_report_drain_results Cap vs (Contract.newest Cap vs)).
Proof.
  intros Hwf H0. rewrite results_refines by exact Hwf. rewrite H0.
  apply ContractFacts.fill_report_drain_contract. exact Cap_pos.
Qed.

Lemma empty_contents s : wf s → Base.empty s = true → contents s = [].
Proof.
  intros Hwf He. rewrite (ref_empty _ _ _ _ R s Hwf) in He.
  unfold Contract.empty, Contract.size in He.
  destruct (contents s); [reflexivity|].
  apply Z.eqb_eq in He. simpl in He. lia.
Qed.

(** [write] then [read] on a buffer that is empty or has a single slot. *)
Lemma write_read_roundtrip s v :
  wf s → Base.empty s = true ∨ Cap = 1 →
  ∃ s1 s2, Base.write v s = Done s1 ∧ Base.read s1 = Done (Some v, s2).
Proof.
  intros Hwf Hcase.
  destruct (ref_write _ _ _ _ R v s Hwf) as (s1 & Hw & Hwf1 & Hc1).
  destruct (ref_read _ _ _ _ R s1 Hwf1) as (s2 & Hr & _ & _).
  exists s1, s2. split; [exact Hw|]. rewrite Hr, Hc1. f_equal. f_equal.
  destruct Hcase as [He|Hone].
  - rewrite (empty_contents s Hwf He).
    unfold Contract.write. destruct (Contract.full Cap []); reflexivity.
  - pose proof (ref_bound _ _ _ _ R s Hwf) as Hb.
    unfold Contract.write, Contract.full, Contract.size in *.
    destruct (contents s) as [|x [|y q]].
    + destruct (_ =? _); reflexivity.
    + change (Z.of_nat (length [x])) with 1. rewrite Hone. reflexivity.
    + simpl length in Hb. lia.
Qed.

Lemma write_snoc (q : list T) v : ∃ q', Contract.write Cap v q = q' ++ [v].
Proof. unfold Contract.write. destruct (Contract.full Cap q); eauto. Qed.

(** After a write the buffer is not empty, a read returns a value, and
    draining the buffer returns the written value last. *)
Lemma write_not_empty s v :
  wf s →
  ∃ s1, Base.write v s = Done s1 ∧ Base.empty s1 = false ∧
        (∃ x s2, Base.read s1 = Done (Some x, s2)) ∧
        (∃ rs s3,
           run impl (replicate (Z.to_nat (Base.size s1)) Read) s1
             = Done (rs ++ [RRead (Some v)], s3)).
Proof.
  intros Hwf.
  destruct (ref_write _ _ _ _ R v s Hwf) as (s1 & Hw & Hwf1 & Hc1).
  destruct (write_snoc (contents s) v) as [q' Hq']. rewrite Hq' in Hc1.
  exists s1. split; [exact Hw|]. split; [|split].
  - rewrite (ref_empty _ _ _ _ R s1 Hwf1), Hc1.
    unfold Contract.empty, Contract.size. rewrite length_app. simpl.
    apply Z.eqb_neq. lia.
  - destruct (ref_read _ _ _ _ R s1 Hwf1) as (s2 & Hr & _ & _).
    rewrite Hc1 in Hr. destruct q' as [|x q']; simpl in Hr; eauto.
  - rewrite (ref_size _ _ _ _ R s1 Hwf1). unfold Contract.size.
    rewrite Nat2Z.id.
    destruct (run_refines (replicate (length (contents s1)) Read) s1 Hwf1)
      as (rs & s3 & Hrun & _ & Hcontract).
    rewrite ContractFacts.run_reads in Hcontract.
    injection Hcontract as Hrs _.
    rewrite Hc1, map_app in Hrs. simpl in Hrs.
    exists (map (λ v, RRead (Some v)) q'), s3. rewrite Hrs. exact Hrun.
Qed.

(** After [clear] the buffer is empty. *)
Lemma clear_empty s :
  wf s →
  Base.empty (Base.clear s) = true ∧ Base.full (Base.clear s) = false ∧
  Base.size (Base.clear s) = 0.
Proof.
  intros Hwf. destruct (ref_clear _ _ _ _ R s Hwf) as (Hwf' & Hc).
  rewrite (ref_empty _ _ _ _ R _ Hwf'), (ref_full _ _ _ _ R _ Hwf'),
    (ref_size _ _ _ _ R _ Hwf'), Hc.
  unfold Contract.empty, Contract.full, Contract.size.
  change (Z.of_nat (length [])) with 0.
  destruct (Z.eqb_spec 0 Cap); [lia|]. auto.
Qed.

End Refinement.
End RefinementFacts.

(** ** Laws of the operations, for every refinement of the contract *)

Module RefinementLaws.
Section Laws.
Context {T B : Type} (impl : Base.RingBuffer T B) (Cap : Z).
Context (wf : B → Prop) (contents : B → list T).
Hypothesis Cap_pos : 1 ≤ Cap.
Hypothesis R : refinement impl Cap wf contents.
Implicit Types (s : B) (os : list (op T)).

Local Abbreviation contract := (Contract.ring_buffer (T:=T) Cap).

Lemma size_length s : wf s → Base.size s = Z.of_nat (length (contents s)).
Proof. intros Hwf. apply (ref_size _ _ _ _ R s Hwf). Qed.

Lemma full_length s :
  wf s → Base.full s = (Z.of_nat (length (contents s)) =? Cap).
Proof. intros Hwf. apply (ref_full _ _ _ _ R s Hwf). Qed.

Lemma empty_length s :
  wf s → Base.empty s = (Z.of_nat (length (contents s)) =? 0).
Proof. intros Hwf. apply (ref_empty _ _ _ _ R s Hwf). Qed.

Lemma length_bound s : wf s → Z.of_nat (length (contents s)) ≤ Cap.
Proof. intros Hwf. apply (ref_bound _ _ _ _ R s Hwf). Qed.

(** The observers agree with one another. *)
Lemma observers_agree s :
  wf s →
  Base.full s = (Base.size s =? Base.capacity s) ∧
  Base.empty s = (Base.size s =? 0) ∧
  0 ≤ Base.size s ≤ Base.capacity s ∧
  ¬ (Base.full s = true ∧ Base.empty s = true).
Proof.
  intros Hwf. pose proof (length_bound s Hwf) as Hb.
  rewrite (ref_capacity _ _ _ _ R s), (size_length s Hwf),
    (full_length s Hwf), (empty_length s Hwf).
  repeat split; lia.
Qed.

(** [write] adds one element, and drops the oldest one of a full buffer. *)
Lemma write_effect s v :
  wf s →
  ∃ s', Base.write v s = Done s' ∧ wf s' ∧
        Base.size s' = Z.min (Base.size s + 1) Cap ∧
        contents s'
          = (if Base.full s then drop 1 (contents s) else contents s) ++ [v].
Proof.
  intros Hwf. pose proof (length_bound s Hwf) as Hb.
  destruct (ref_write _ _ _ _ R v s Hwf) as (s' & Hw & Hwf' & Hc).
  exists s'. split; [exact Hw|]. split; [exact Hwf'|].
  rewrite (size_length s' Hwf'), (size_length s Hwf), (full_length s Hwf), Hc.
  unfold Contract.write, Contract.full, Contract.size.
  destruct (Z.eqb_spec (Z.of_nat (length (contents s))) Cap) as [Heq|Hne].
  - split; [|reflexivity]. rewrite length_app, length_drop. simpl. lia.
  - split; [|reflexivity]. rewrite length_app. simpl. lia.
Qed.

(** [read] on a buffer that is not empty removes the oldest element. *)
Lemma read_effect s :
  wf s → Base.empty s = false →
  ∃ x s', Base.read s = Done (Some x, s') ∧ wf s' ∧
          Base.size s' = Base.size s - 1 ∧ Base.full s' = false ∧
          contents s = x :: contents s'.
Proof.
  intros Hwf He. pose proof (length_bound s Hwf) as Hb.
  rewrite (empty_length s Hwf) in He. apply Z.eqb_neq in He.
  destruct (ref_read _ _ _ _ R s Hwf) as (s' & Hr & Hwf' & Hc).
  destruct (contents s) as [|x q] eqn:Hq; [simpl in He; lia|].
  simpl in Hr, Hc. exists x, s'. split; [exact Hr|]. split; [exact Hwf'|].
  rewrite (size_length s' Hwf'), (size_length s Hwf), (full_length s' Hwf'), Hc, Hq.
  simpl length in *. repeat split; lia.
Qed.

(** Reading [size()] times returns the live elements, oldest first; the
    buffer is then empty and a further [read] returns nothing. *)
Lemma drain s :
  wf s →
  results impl (replicate (Z.to_nat (Base.size s)) Read ++ [Read; Empty]) s
  = Done (map (λ v, RRead (Some v)) (contents s) ++ [RRead None; RBool true]).
Proof.
  intros Hwf.
  rewrite (RefinementFacts.results_refines _ Cap _ _ R) by exact Hwf.
  rewrite (size_length s Hwf), Nat2Z.id. unfold results.
  rewrite (CallFacts.run_app contract _ _ _ _ _
             (ContractFacts.run_reads Cap (contents s))).
  reflexivity.
Qed.

(** States with the same live elements cannot be told apart. *)
Lemma same_contents s1 s2 os :
  wf s1 → wf s2 → contents s1 = contents s2 →
  results impl os s1 = results impl os s2.
Proof.
  intros Hwf1 Hwf2 Hc.
  rewrite !(RefinementFacts.results_refines _ Cap _ _ R) by assumption.
  rewrite Hc. reflexivity.
Qed.

End Laws.
End RefinementLaws.

(** ** [GuardElemRingBuffer] refines the contract *)

Module GuardElemFacts.
Import GuardElem.
Section Facts.
Context {T : Type} (Cap : Z).
Hypothesis Cap_range : 1 ≤ Cap < SizeT.SIZE_MAX.
Implicit Types (s : t T) (i : Z).

Lemma phys_lt_modulus : 0 < Cap + 1 < SizeT.modulus.
Proof. pose proof Cap_range as Hc. unfold SizeT.SIZE_MAX in Hc. lia. Qed.

Lemma true_capacity_eq : true_capacity Cap = Cap + 1.
Proof.
  unfold true_capacity. apply SizeTFacts.add_small.
  pose proof phys_lt_modulus. lia.
Qed.

Lemma phys_range : 1 ≤ Cap + 1 ≤ SizeT.SIZE_MAX.
Proof. lia. Qed.

Lemma guard_idx_increment_next i :
  idx_increment Cap i = Ring.next (Cap + 1) i.
Proof. unfold idx_increment, Ring.next. rewrite true_capacity_eq. reflexivity. Qed.

Lemma guard_idx_increment_eq i :
  0 ≤ i < Cap + 1 →
  idx_increment Cap i = if i + 1 =? Cap + 1 then 0 else i + 1.
Proof.
  intros Hi. rewrite guard_idx_increment_next.
  apply RingFacts.next_eq; [exact phys_range | exact Hi].
Qed.

Lemma wf_unfold s :
  wf Cap s ↔
  0 ≤ head s < Cap + 1 ∧ 0 ≤ tail s < Cap + 1 ∧
  Z.of_nat (length (buf s)) = Cap + 1.
Proof. unfold wf. rewrite true_capacity_eq. reflexivity. Qed.

Lemma full_eq s :
  wf Cap s →
  full Cap s = ((if head s + 1 =? Cap + 1 then 0 else head s + 1) =? tail s).
Proof.
  intros Hwf%wf_unfold. unfold full. rewrite guard_idx_increment_eq by tauto. reflexivity.
Qed.

Lemma guard_size_eq s :
  wf Cap s →
  size Cap s =
    if tail s <=? head s then head s - tail s else Cap + 1 + head s - tail s.
Proof.
  intros Hwf. pose proof (full_eq s Hwf) as Hfull.
  apply wf_unfold in Hwf. destruct Hwf as (Hh & Ht & _).
  unfold size, capacity. rewrite Hfull, true_capacity_eq.
  pose proof phys_lt_modulus.
  split_tests; try lia;
    first [apply SizeTFacts.sub_small; lia | apply SizeTFacts.sub_add_exact; lia].
Qed.

Lemma guard_size_range s : wf Cap s → 0 ≤ size Cap s ≤ Cap.
Proof.
  intros Hwf. rewrite guard_size_eq by exact Hwf.
  apply wf_unfold in Hwf. destruct (Z.leb_spec (tail s) (head s)); lia.
Qed.

Lemma guard_full_size s : wf Cap s → full Cap s = (size Cap s =? Cap).
Proof.
  intros Hwf. rewrite full_eq, guard_size_eq by exact Hwf.
  apply wf_unfold in Hwf.
  split_tests; try reflexivity; lia.
Qed.

Lemma guard_empty_size s : wf Cap s → empty s = (size Cap s =? 0).
Proof.
  intros Hwf. unfold empty. rewrite guard_size_eq by exact Hwf.
  apply wf_unfold in Hwf.
  split_tests; try reflexivity; lia.
Qed.

(** The write cursor is [size s] slots ahead of the read cursor. *)
Lemma guard_head_offset s :
  wf Cap s → head s = (tail s + size Cap s) mod (Cap + 1).
Proof.
  intros Hwf. pose proof (guard_size_range s Hwf) as Hr.
  rewrite (RingFacts.offset_eq (Cap + 1)) by (apply wf_unfold in Hwf; lia).
  rewrite guard_size_eq in * by exact Hwf. apply wf_unfold in Hwf.
  split_tests; lia.
Qed.

Lemma guard_contents_length s :
  wf Cap s → Z.of_nat (length (contents Cap s)) = size Cap s.
Proof.
  intros Hwf. pose proof (guard_size_range s Hwf). unfold contents.
  rewrite true_capacity_eq.
  rewrite (RingFacts.window_length (Cap + 1) phys_range)
    by (apply wf_unfold in Hwf; tauto).
  lia.
Qed.

Lemma guard_contract_full s :
  wf Cap s → Contract.full Cap (contents Cap s) = full Cap s.
Proof.
  intros Hwf. unfold Contract.full, Contract.size.
  rewrite guard_contents_length, guard_full_size by exact Hwf. reflexivity.
Qed.

Lemma guard_write_refines data s :
  wf Cap s →
  ∃ s', write Cap data s = Done s' ∧ wf Cap s' ∧
        contents Cap s' = Contract.write Cap data (contents Cap s).
Proof.
  intros Hwf.
  pose proof (guard_size_range s Hwf) as Hsz.
  pose proof (guard_head_offset s Hwf) as Hoff.
  pose proof (guard_full_size s Hwf) as Hfs.
  pose proof (full_eq s Hwf) as Hfe.
  pose proof (guard_size_eq s Hwf) as Hse.
  unfold Contract.write. rewrite (guard_contract_full s Hwf).
  unfold contents at 2 3. rewrite true_capacity_eq.
  apply wf_unfold in Hwf. destruct s as [h t a]. simpl in *.
  destruct Hwf as (Hh & Ht & Ha).
  unfold write, store. simpl. rewrite StdArrayFacts.set_in_bounds by lia.
  simpl. unfold move_tail_if_full.
  change (full Cap (Build h t (<[Z.to_nat h:=data]> a)))
    with (full Cap (Build h t a)).
  set (a' := <[Z.to_nat h:=data]> a).
  assert (Ha' : Z.of_nat (length a') = Cap + 1)
    by (unfold a'; rewrite length_insert; exact Ha).
  destruct (full Cap (Build h t a)) eqn:Hf; unfold move_head; simpl;
    (eexists; split; [reflexivity|]);
    match goal with |- wf Cap ?s' ∧ _ =>
      assert (Hwf' : wf Cap s')
        by (apply wf_unfold; simpl; rewrite !guard_idx_increment_eq by lia;
            split_tests; lia);
      pose proof (guard_size_eq _ Hwf') as Hse'; simpl in Hse'
    end; (split; [exact Hwf'|]); unfold contents; rewrite true_capacity_eq;
    simpl; rewrite Hse'; clear Hse' Hwf'; repeat rewrite guard_idx_increment_next.
  - (* the buffer was full: the oldest element is dropped *)
    assert (Hn : size Cap (Build h t a) = Cap) by (symmetry in Hfs; lia).
    rewrite Hn in *.
    replace (Z.to_nat (if _ <=? _ then _ else _)) with (Z.to_nat Cap)
      by (f_equal; rewrite !(RingFacts.next_eq (Cap + 1) phys_range) by lia;
          split_tests; lia).
    apply (WindowFacts.store_slides (Cap + 1) phys_range); try lia.
    rewrite Z2Nat.id by lia. exact Hoff.
  - (* there was room: the element is appended *)
    assert (Hn : size Cap (Build h t a) < Cap) by lia.
    replace (Z.to_nat (if _ <=? _ then _ else _))
      with (S (Z.to_nat (size Cap (Build h t a)))).
    + apply (WindowFacts.store_grows (Cap + 1) phys_range); try lia.
      rewrite Z2Nat.id by lia. exact Hoff.
    + rewrite <- Z2Nat.inj_succ by lia. f_equal. rewrite Hse.
      rewrite !(RingFacts.next_eq (Cap + 1) phys_range) by lia.
      split_tests; lia.
Qed.

Lemma guard_read_refines s :
  wf Cap s →
  ∃ s', read Cap s = Done (fst (Contract.read (contents Cap s)), s') ∧
        wf Cap s' ∧ contents Cap s' = snd (Contract.read (contents Cap s)).
Proof.
  intros Hwf.
  pose proof (guard_size_range s Hwf) as Hsz.
  pose proof (guard_empty_size s Hwf) as Hes.
  pose proof (guard_size_eq s Hwf) as Hse.
  unfold read. destruct (empty s) eqn:He.
  - (* nothing to read *)
    assert (Hn : size Cap s = 0) by (symmetry in Hes; lia).
    exists s. unfold contents. rewrite Hn. simpl. auto.
  - assert (Hn : 1 ≤ size Cap s) by lia.
    assert (Hq : ∃ y, buf s !! Z.to_nat (tail s) = Some y ∧
              contents Cap s =
                y :: Ring.window (Cap + 1) (buf s) (Ring.next (Cap + 1) (tail s))
                       (Z.to_nat (size Cap s - 1))).
    { unfold contents. rewrite true_capacity_eq.
      replace (Z.to_nat (size Cap s)) with (S (Z.to_nat (size Cap s - 1))) by lia.
      apply RingFacts.window_cons; apply wf_unfold in Hwf; tauto. }
    destruct Hq as (y & Hy & ->).
    apply wf_unfold in Hwf. destruct s as [h t a]. simpl in *.
    destruct Hwf as (Hh & Ht & Ha).
    rewrite (StdArrayFacts.get_lookup a t y) by (lia || exact Hy). simpl.
    eexists; split; [reflexivity|].
    match goal with |- wf Cap ?s' ∧ _ =>
      assert (Hwf' : wf Cap s')
        by (apply wf_unfold; simpl; rewrite !guard_idx_increment_eq by lia;
            split_tests; lia);
      pose proof (guard_size_eq _ Hwf') as Hse'; simpl in Hse'
    end.
    split; [exact Hwf'|]. unfold contents. rewrite true_capacity_eq. simpl.
    rewrite Hse', Hse, !guard_idx_increment_next. f_equal. f_equal.
    rewrite !(RingFacts.next_eq (Cap + 1) phys_range) by lia.
    split_tests; lia.
Qed.

Lemma guard_clear_refines s :
  wf Cap s → wf Cap (clear s) ∧ contents Cap (clear s) = [].
Proof.
  intros Hwf.
  assert (Hwf' : wf Cap (clear s))
    by (apply wf_unfold in Hwf; apply wf_unfold; simpl; tauto).
  split; [exact Hwf'|]. unfold contents.
  rewrite (guard_size_eq _ Hwf'). simpl. rewrite Z.leb_refl, Z.sub_diag. reflexivity.
Qed.

Lemma guard_init_wf (dflt : T) : wf Cap (init Cap dflt).
Proof.
  apply wf_unfold. simpl. rewrite length_replicate, true_capacity_eq. lia.
Qed.

Lemma guard_init_contents (dflt : T) : contents Cap (init Cap dflt) = [].
Proof.
  unfold contents. rewrite (guard_size_eq _ (guard_init_wf dflt)). reflexivity.
Qed.

(** The guard-element buffer guard_refines the contract. *)
Lemma guard_refines :
  refinement (ring_buffer (T:=T) Cap) Cap (wf Cap) (contents Cap).
Proof.
  split; simpl.
  - exact guard_read_refines.
  - exact guard_write_refines.
  - exact guard_clear_refines.
  - intros s Hwf. symmetry. apply guard_contract_full. exact Hwf.
  - intros s Hwf. unfold Contract.empty, Contract.size.
    rewrite guard_contents_length by exact Hwf. apply guard_empty_size. exact Hwf.
  - intros s Hwf. unfold Contract.size. symmetry. apply guard_contents_length. exact Hwf.
  - reflexivity.
  - intros s Hwf. unfold Contract.size. rewrite guard_contents_length by exact Hwf.
    apply guard_size_range. exact Hwf.
Qed.

(** A write into a full buffer, assignment by assignment. *)
Lemma guard_overwrite_step data s :
  wf Cap s → full Cap s = true →
  ∃ s1, store data s = Done s1 ∧
        tail (move_tail_if_full Cap s1) = idx_increment Cap (tail s) ∧
        head (move_tail_if_full Cap s1) = head s ∧
        write Cap data s = Done (move_head Cap (move_tail_if_full Cap s1)) ∧
        head (move_head Cap (move_tail_if_full Cap s1))
          = idx_increment Cap (head s) ∧
        tail (move_head Cap (move_tail_if_full Cap s1))
          = idx_increment Cap (tail s) ∧
        contents Cap (move_head Cap (move_tail_if_full Cap s1))
          = drop 1 (contents Cap s) ++ [data].
Proof.
  intros Hwf Hfull.
  destruct (guard_write_refines data s Hwf) as (s' & Hw & _ & Hc).
  unfold Contract.write in Hc. rewrite (guard_contract_full s Hwf), Hfull in Hc.
  apply wf_unfold in Hwf. destruct Hwf as (Hh & Ht & Ha).
  unfold write in Hw. unfold write, store in *.
  rewrite StdArrayFacts.set_in_bounds in * by lia. simpl in *.
  eexists; split; [reflexivity|].
  injection Hw as <-.
  unfold move_tail_if_full in *.
  change (full Cap (Build (head s) (tail s) (<[Z.to_nat (head s):=data]> (buf s))))
    with (full Cap s) in *.
  rewrite Hfull in *. simpl. repeat split; auto.
Qed.

Lemma guard_reachable_wf (dflt : T) s :
  reachable_from (ring_buffer Cap) (init Cap dflt) s → wf Cap s.
Proof.
  apply (RefinementFacts.reachable_wf _ Cap _ _ guard_refines).
  apply guard_init_wf.
Qed.

End Facts.
End GuardElemFacts.

(** ** [FullFlagRingBuffer] refines the contract *)

Module FullFlagFacts.
Import FullFlag.
Section Facts.
Context {T : Type} (Cap : Z).
Hypothesis Cap_range : 1 ≤ Cap ≤ SizeT.SIZE_MAX.
Implicit Types (s : t T) (i : Z).

Lemma cap_lt_modulus : 0 < Cap < SizeT.modulus.
Proof. pose proof Cap_range as Hc. unfold SizeT.SIZE_MAX in Hc. lia. Qed.

Lemma flag_idx_increment_next i : idx_increment Cap i = Ring.next Cap i.
Proof. reflexivity. Qed.

Lemma flag_idx_increment_eq i :
  0 ≤ i < Cap → idx_increment Cap i = if i + 1 =? Cap then 0 else i + 1.
Proof. intros Hi. apply RingFacts.next_eq; [exact Cap_range | exact Hi]. Qed.

Lemma flag_size_eq s :
  wf Cap s →
  size Cap s =
    if _full s then Cap
    else if tail s <=? head s then head s - tail s
         else Cap + head s - tail s.
Proof.
  intros (Hh & Ht & _ & _). unfold size. pose proof cap_lt_modulus.
  destruct (_full s); [reflexivity|].
  split_tests;
    first [apply SizeTFacts.sub_small; lia | apply SizeTFacts.sub_add_exact; lia].
Qed.

Lemma flag_size_range s : wf Cap s → 0 ≤ size Cap s ≤ Cap.
Proof.
  intros Hwf. rewrite flag_size_eq by exact Hwf. destruct Hwf as (Hh & Ht & _ & _).
  destruct (_full s); split_tests; lia.
Qed.

Lemma flag_full_size s : wf Cap s → full s = (size Cap s =? Cap).
Proof.
  intros Hwf. rewrite flag_size_eq by exact Hwf. destruct Hwf as (Hh & Ht & _ & _).
  unfold full. destruct (_full s); split_tests; try reflexivity; lia.
Qed.

Lemma flag_empty_size s : wf Cap s → empty s = (size Cap s =? 0).
Proof.
  intros Hwf. rewrite flag_size_eq by exact Hwf. destruct Hwf as (Hh & Ht & _ & Hf).
  unfold empty. destruct (_full s); simpl; split_tests; try reflexivity; lia.
Qed.

(** The write cursor is [size s] slots ahead of the read cursor. *)
Lemma flag_head_offset s :
  wf Cap s → head s = (tail s + size Cap s) mod Cap.
Proof.
  intros Hwf. rewrite flag_size_eq by exact Hwf. destruct Hwf as (Hh & Ht & _ & Hf).
  destruct (_full s).
  - rewrite Hf by reflexivity.
    transitivity ((tail s + 1 * Cap) mod Cap); [|f_equal; lia].
    rewrite Z_mod_plus_full. symmetry. apply Z.mod_small. lia.
  - rewrite (RingFacts.offset_eq Cap) by (split_tests; lia).
    split_tests; lia.
Qed.

Lemma flag_contents_length s :
  wf Cap s → Z.of_nat (length (contents Cap s)) = size Cap s.
Proof.
  intros Hwf. pose proof (flag_size_range s Hwf). unfold contents.
  destruct Hwf as (Hh & Ht & Ha & _).
  rewrite (RingFacts.window_length Cap Cap_range) by assumption. lia.
Qed.

Lemma flag_contract_full s :
  wf Cap s → Contract.full Cap (contents Cap s) = full s.
Proof.
  intros Hwf. unfold Contract.full, Contract.size.
  rewrite flag_contents_length, flag_full_size by exact Hwf. reflexivity.
Qed.

Lemma flag_write_refines data s :
  wf Cap s →
  ∃ s', write Cap data s = Done s' ∧ wf Cap s' ∧
        contents Cap s' = Contract.write Cap data (contents Cap s).
Proof.
  intros Hwf.
  pose proof (flag_size_range s Hwf) as Hsz.
  pose proof (flag_head_offset s Hwf) as Hoff.
  pose proof (flag_full_size s Hwf) as Hfs.
  pose proof (flag_size_eq s Hwf) as Hse.
  unfold Contract.write. rewrite (flag_contract_full s Hwf).
  unfold contents at 2 3.
  destruct s as [h t a f]. unfold full in *. simpl in *.
  destruct Hwf as (Hh & Ht & Ha & Hf). simpl in *.
  unfold write, store. simpl. rewrite StdArrayFacts.set_in_bounds by lia.
  simpl. unfold move_tail_if_full, full. simpl.
  set (a' := <[Z.to_nat h:=data]> a).
  assert (Ha' : Z.of_nat (length a') = Cap)
    by (unfold a'; rewrite length_insert; exact Ha).
  destruct f; unfold move_head, update_full; simpl;
    (eexists; split; [reflexivity|]);
    match goal with |- wf Cap ?s' ∧ _ =>
      assert (Hwf' : wf Cap s')
        by (unfold wf; simpl; rewrite !flag_idx_increment_eq by lia;
            split_tests; (repeat split; try lia; try discriminate));
      pose proof (flag_size_eq _ Hwf') as Hse'; simpl in Hse'
    end; (split; [exact Hwf'|]); unfold contents;
    simpl; rewrite Hse'; clear Hse' Hwf'; change (idx_increment Cap) with (Ring.next Cap).
  - (* the buffer was full: the oldest element is dropped *)
    assert (Hht : h = t) by (apply Hf; reflexivity).
    rewrite (proj2 (Z.eqb_eq (Ring.next Cap h) (Ring.next Cap t)))
      by (f_equal; exact Hht).
    apply (WindowFacts.store_slides Cap Cap_range); try lia.
    rewrite Z2Nat.id by lia. exact Hoff.
  - (* there was room: the element is appended *)
    assert (Hn : size Cap (Build h t a false) < Cap) by lia.
    replace (Z.to_nat (if _ =? _ then _ else _))
      with (S (Z.to_nat (size Cap (Build h t a false)))).
    + apply (WindowFacts.store_grows Cap Cap_range); try lia.
      rewrite Z2Nat.id by lia. exact Hoff.
    + rewrite <- Z2Nat.inj_succ by lia. f_equal. rewrite Hse.
      rewrite !(RingFacts.next_eq Cap Cap_range) by lia.
      split_tests; lia.
Qed.

Lemma flag_read_refines s :
  wf Cap s →
  ∃ s', read Cap s = Done (fst (Contract.read (contents Cap s)), s') ∧
        wf Cap s' ∧ contents Cap s' = snd (Contract.read (contents Cap s)).
Proof.
  intros Hwf.
  pose proof (flag_size_range s Hwf) as Hsz.
  pose proof (flag_empty_size s Hwf) as Hes.
  pose proof (flag_size_eq s Hwf) as Hse.
  unfold read. destruct (empty s) eqn:He.
  - (* nothing to read *)
    assert (Hn : size Cap s = 0) by (symmetry in Hes; lia).
    exists s. unfold contents. rewrite Hn. simpl. auto.
  - assert (Hn : 1 ≤ size Cap s) by lia.
    assert (Hq : ∃ y, buf s !! Z.to_nat (tail s) = Some y ∧
              contents Cap s =
                y :: Ring.window Cap (buf s) (Ring.next Cap (tail s))
                       (Z.to_nat (size Cap s - 1))).
    { unfold contents.
      replace (Z.to_nat (size Cap s)) with (S (Z.to_nat (size Cap s - 1))) by lia.
      apply RingFacts.window_cons; unfold wf in Hwf; tauto. }
    destruct Hq as (y & Hy & ->).
    destruct s as [h t a f]. simpl in *.
    destruct Hwf as (Hh & Ht & Ha & Hf). simpl in *.
    rewrite (StdArrayFacts.get_lookup a t y) by (lia || exact Hy). simpl.
    eexists; split; [reflexivity|].
    match goal with |- wf Cap ?s' ∧ _ =>
      assert (Hwf' : wf Cap s')
        by (unfold wf; simpl; rewrite !flag_idx_increment_eq by lia;
            split_tests; (repeat split; try lia; try discriminate));
      pose proof (flag_size_eq _ Hwf') as Hse'; simpl in Hse'
    end.
    split; [exact Hwf'|]. unfold contents. simpl.
    rewrite Hse', Hse. change (idx_increment Cap) with (Ring.next Cap).
    f_equal. f_equal.
    rewrite !(RingFacts.next_eq Cap Cap_range) by lia.
    destruct f; [rewrite Hf in * by reflexivity|]; split_tests; lia.
Qed.

Lemma flag_clear_refines s :
  wf Cap s → wf Cap (clear s) ∧ contents Cap (clear s) = [].
Proof.
  intros Hwf.
  assert (Hwf' : wf Cap (clear s))
    by (unfold wf in *; simpl; intuition discriminate).
  split; [exact Hwf'|]. unfold contents.
  rewrite (flag_size_eq _ Hwf'). simpl. rewrite Z.leb_refl, Z.sub_diag. reflexivity.
Qed.

Lemma flag_init_wf (dflt : T) : wf Cap (init Cap dflt).
Proof.
  unfold wf. simpl. rewrite length_replicate.
  repeat split; try lia; discriminate.
Qed.

Lemma flag_init_contents (dflt : T) : contents Cap (init Cap dflt) = [].
Proof.
  unfold contents. rewrite (flag_size_eq _ (flag_init_wf dflt)). reflexivity.
Qed.

(** The full-flag buffer flag_refines the contract. *)
Lemma flag_refines :
  refinement (ring_buffer (T:=T) Cap) Cap (wf Cap) (contents Cap).
Proof.
  split; simpl.
  - exact flag_read_refines.
  - exact flag_write_refines.
  - exact flag_clear_refines.
  - intros s Hwf. symmetry. apply flag_contract_full. exact Hwf.
  - intros s Hwf. unfold Contract.empty, Contract.size.
    rewrite flag_contents_length by exact Hwf. apply flag_empty_size. exact Hwf.
  - intros s Hwf. unfold Contract.size. symmetry. apply flag_contents_length. exact Hwf.
  - reflexivity.
  - intros s Hwf. unfold Contract.size. rewrite flag_contents_length by exact Hwf.
    apply flag_size_range. exact Hwf.
Qed.

(** A write into a full buffer, assignment by assignment. *)
Lemma flag_overwrite_step data s :
  wf Cap s → full s = true →
  ∃ s1, store data s = Done s1 ∧
        tail (move_tail_if_full Cap s1) = idx_increment Cap (tail s) ∧
        head (move_tail_if_full Cap s1) = head s ∧
        write Cap data s
          = Done (update_full (move_head Cap (move_tail_if_full Cap s1))) ∧
        head (update_full (move_head Cap (move_tail_if_full Cap s1)))
          = idx_increment Cap (head s) ∧
        tail (update_full (move_head Cap (move_tail_if_full Cap s1)))
          = idx_increment Cap (tail s) ∧
        contents Cap (update_full (move_head Cap (move_tail_if_full Cap s1)))
          = drop 1 (contents Cap s) ++ [data].
Proof.
  intros Hwf Hfull.
  destruct (flag_write_refines data s Hwf) as (s' & Hw & _ & Hc).
  unfold Contract.write in Hc. rewrite (flag_contract_full s Hwf), Hfull in Hc.
  destruct Hwf as (Hh & Ht & Ha & _).
  unfold write in Hw. unfold write, store in *.
  rewrite StdArrayFacts.set_in_bounds in * by lia. simpl in *.
  eexists; split; [reflexivity|].
  injection Hw as <-.
  unfold move_tail_if_full, full in *. simpl in *.
  rewrite Hfull in *. simpl. repeat split; auto.
Qed.

Lemma flag_reachable_wf (dflt : T) s :
  reachable_from (ring_buffer Cap) (init Cap dflt) s → wf Cap s.
Proof.
  apply (RefinementFacts.reachable_wf _ Cap _ _ flag_refines).
  apply flag_init_wf.
Qed.

(** The flag is set exactly when [Cap] elements are live. *)
Lemma flag_full_survivors (dflt : T) os rs s :
  run (ring_buffer Cap) os (init Cap dflt) = Done (rs, s) →
  wf Cap s ∧
  Z.of_nat (length (Contract.survivors Cap os)) ≤ Cap ∧
  (_full s = true ↔ Z.of_nat (length (Contract.survivors Cap os)) = Cap).
Proof.
  intros Hrun.
  destruct (RefinementFacts.run_contents _ Cap _ _ flag_refines os _ rs s
              (flag_init_wf dflt) (flag_init_contents dflt) Hrun) as (Hwf & Hc).
  pose proof (flag_contents_length s Hwf) as Hl. rewrite Hc in Hl.
  pose proof (flag_size_range s Hwf) as Hr.
  pose proof (flag_full_size s Hwf) as Hf. unfold full in Hf.
  split; [exact Hwf|]. split; [lia|].
  rewrite Hl, Hf. apply Z.eqb_eq.
Qed.

End Facts.
End FullFlagFacts.


(** ** The test of [main.cpp] passes *)

Module HarnessFacts.
Import Harness.

Lemma to_int_small x : 0 ≤ x ≤ INT_MAX → to_int x = x.
Proof.
  unfold INT_MAX, to_int.
  change (2 ^ 31) with 2147483648. change (2 ^ 32) with 4294967296.
  intros Hx. rewrite Z.mod_small by lia. lia.
Qed.

Lemma to_size_t_small x : 0 ≤ x ≤ INT_MAX → to_size_t x = x.
Proof.
  unfold INT_MAX, to_size_t. change (2 ^ 31) with 2147483648.
  intros Hx. apply SizeTFacts.wrap_small.
  unfold SizeT.modulus. change (2 ^ 64) with 18446744073709551616. lia.
Qed.

Lemma int_max_lt_size_max : INT_MAX < SizeT.SIZE_MAX.
Proof. reflexivity. Qed.

Lemma size_t_add_small a b :
  0 ≤ a → 0 ≤ b → a + b ≤ INT_MAX + 1 → SizeT.add a b = a + b.
Proof.
  intros Ha Hb Hab. apply SizeTFacts.add_small.
  pose proof int_max_lt_size_max. unfold SizeT.SIZE_MAX in *. lia.
Qed.

(** The newest [Cap] of the values [0, 1, ..., n - 1]. *)
Lemma newest_seqZ Cap n :
  0 ≤ n → 0 ≤ Cap →
  Contract.newest Cap (seqZ 0 n) = seqZ (n - Z.min n Cap) (Z.min n Cap).
Proof.
  intros Hn HCap. unfold Contract.newest. rewrite length_seqZ.
  destruct (Z.le_gt_cases n Cap) as [Hle|Hgt].
  - replace (Z.to_nat n - Z.to_nat Cap)%nat with 0%nat by lia.
    rewrite Z.min_l by lia. rewrite Z.sub_diag. reflexivity.
  - rewrite Z.min_r by lia.
    replace n with ((n - Cap) + Cap) at 2 by lia.
    rewrite seqZ_app by lia.
    rewrite drop_app_length' by (rewrite length_seqZ; lia).
    f_equal.
Qed.

Section Test.
Context {B : Type} (ring_buf : Base.RingBuffer Z B) (Cap : Z).
Context (wf : B → Prop) (contents : B → list Z).
Hypothesis Cap_pos : 1 ≤ Cap.
Hypothesis Cap_int : Cap + 10 ≤ INT_MAX.
Hypothesis R : refinement ring_buf Cap wf contents.

(** The loop of [write_helper] writes [i, i + 1, ...]. *)
Lemma write_loop_contents n i b l :
  wf b → contents b = Contract.newest Cap l →
  0 ≤ i → i + Z.of_nat n ≤ INT_MAX + 1 →
  ∃ b', write_loop ring_buf n i b = Done b' ∧ wf b' ∧
        contents b' = Contract.newest Cap (l ++ seqZ i (Z.of_nat n)).
Proof.
  revert i b l. induction n as [|n IH]; intros i b l Hwf Hc Hi Hn.
  - exists b. simpl. rewrite app_nil_r. auto.
  - destruct (ref_write _ _ _ _ R (to_int i) b Hwf) as (b1 & Hw & Hwf1 & Hc1).
    rewrite to_int_small in Hc1 by lia.
    rewrite Hc in Hc1.
    rewrite (ContractFacts.write_keep Cap Cap_pos) in Hc1
      by (apply ContractFacts.keep_length; exact Cap_pos).
    rewrite (ContractFacts.keep_snoc Cap Cap_pos) in Hc1.
    destruct (IH (i + 1) b1 (l ++ [i]) Hwf1 Hc1 ltac:(lia) ltac:(lia))
      as (b' & Hloop & Hwf' & Hc').
    exists b'. simpl. rewrite Hw. simpl.
    rewrite size_t_add_small by lia. rewrite Hloop.
    split; [reflexivity|]. split; [exact Hwf'|].
    rewrite Hc', <- app_assoc. do 2 f_equal.
    rewrite (seqZ_cons i (Z.of_nat (S n))) by lia.
    simpl. do 2 f_equal; lia.
Qed.

(** [write_helper] on an empty buffer passes its two assertions and
    leaves the newest [Cap] of the values [0, ..., n - 1]. *)
Lemma write_helper_pass n b wd :
  wf b → contents b = [] → 0 ≤ n ≤ INT_MAX + 1 →
  ∃ b', write_helper ring_buf n (b, wd) = Pass (b', true) ∧ wf b' ∧
        contents b' = seqZ (n - Z.min n Cap) (Z.min n Cap).
Proof.
  intros Hwf Hc Hn.
  destruct (write_loop_contents (Z.to_nat n) 0 b [] Hwf) as (b' & Hloop & Hwf' & Hc').
  { rewrite Hc. symmetry. apply ContractFacts.newest_nil. exact Cap_pos. }
  { lia. } { lia. }
  rewrite Z2Nat.id, app_nil_l, newest_seqZ in Hc' by lia.
  exists b'. unfold write_helper. simpl. rewrite Hloop. simpl.
  rewrite (ref_capacity _ _ _ _ R b'), (ref_size _ _ _ _ R b' Hwf').
  unfold Contract.size. rewrite Hc', length_seqZ.
  rewrite Z2Nat.id by lia.
  destruct (Z.ltb_spec Cap (Z.min n Cap)); [lia|].
  rewrite Z.eqb_refl. simpl. auto.
Qed.

(** The loop of [read_helper] on a buffer that holds [m, m + 1, ...]. *)
Lemma read_loop_pass fuel offset i entries b m len :
  wf b → contents b = seqZ m len → 0 ≤ len →
  0 ≤ offset ≤ INT_MAX → 0 ≤ i → m = i + offset →
  m + len ≤ INT_MAX + 1 → 0 ≤ entries → entries + len ≤ INT_MAX + 1 →
  (Z.to_nat len ≤ fuel)%nat →
  ∃ b', read_loop ring_buf fuel offset true i entries b
          = Pass (entries + len, b') ∧
        wf b' ∧ contents b' = [].
Proof.
  remember (Z.to_nat len) as k eqn:Hk.
  revert fuel i entries b m len Hk.
  induction k as [|k IH];
    intros fuel i entries b m len Hk Hwf Hc Hlen Hoff Hi Hm Hmax He Hemax Hfuel.
  - assert (len = 0) by lia. subst len. rewrite seqZ_nil in Hc by lia.
    exists b. split; [|auto].
    assert (Hempty : Base.empty b = true).
    { rewrite (ref_empty _ _ _ _ R b Hwf), Hc. reflexivity. }
    destruct fuel; simpl; rewrite Hempty, Z.add_0_r; reflexivity.
  - rewrite seqZ_cons in Hc by lia.
    assert (Hempty : Base.empty b = false).
    { rewrite (ref_empty _ _ _ _ R b Hwf), Hc.
      unfold Contract.empty, Contract.size. simpl length. apply Z.eqb_neq. lia. }
    destruct (ref_read _ _ _ _ R b Hwf) as (b1 & Hr & Hwf1 & Hc1).
    rewrite Hc in Hr, Hc1. simpl in Hr, Hc1.
    destruct fuel as [|fuel]; [lia|].
    destruct (IH fuel (i + 1) (entries + 1) b1 (Z.succ m) (Z.pred len))
      as (b' & Hloop & Hwf' & Hc'); try lia; try assumption.
    exists b'. simpl. rewrite Hempty, Hr. simpl.
    rewrite !to_size_t_small by lia.
    rewrite !size_t_add_small by lia.
    rewrite (proj2 (Z.eqb_eq m (i + offset)) Hm).
    rewrite Hloop. split; [f_equal; f_equal; lia | auto].
Qed.

(** [read_helper] after [write_helper] passes its four assertions and
    leaves the buffer empty. *)
Lemma read_helper_pass fuel offset b m len :
  wf b → contents b = seqZ m len → 0 ≤ len →
  0 ≤ offset ≤ INT_MAX → m = offset → m + len ≤ INT_MAX + 1 →
  (Z.to_nat len ≤ fuel)%nat →
  ∃ b', read_helper ring_buf fuel (Base.size b) offset (b, true)
          = Pass (b', false) ∧
        wf b' ∧ contents b' = [].
Proof.
  intros Hwf Hc Hlen Hoff Hm Hmax Hfuel.
  destruct (read_loop_pass fuel offset 0 0 b m len)
    as (b' & Hloop & Hwf' & Hc'); try lia; try assumption.
  exists b'. unfold read_helper. simpl. rewrite Hloop. simpl.
  rewrite (ref_empty _ _ _ _ R b' Hwf'), Hc'.
  rewrite (ref_size _ _ _ _ R b Hwf), Hc.
  unfold Contract.empty, Contract.size. rewrite length_seqZ. simpl.
  rewrite Z2Nat.id by lia. rewrite Z.eqb_refl. simpl. auto.
Qed.

(** One round of the test: [write_helper(n)], then
    [read_helper(ring_buf.size(), offset)] with the offset the test
    expects. *)
Lemma round_pass fuel n offset b wd :
  wf b → contents b = [] → 0 ≤ n ≤ Cap + 10 →
  offset = n - Z.min n Cap →
  (Z.to_nat Cap ≤ fuel)%nat →
  ∃ b', wf b' ∧ contents b' = [] ∧
        ∀ (k : B * bool → verdict B),
          and_then (write_helper ring_buf n (b, wd))
            (λ st1,
               and_then
                 (read_helper ring_buf fuel (Base.size (fst st1)) offset st1) k)
          = k (b', false).
Proof.
  intros Hwf Hc Hn -> Hfuel.
  destruct (write_helper_pass n b wd Hwf Hc ltac:(lia)) as (b1 & Hw & Hwf1 & Hc1).
  destruct (read_helper_pass fuel (n - Z.min n Cap) b1 _ _ Hwf1 Hc1)
    as (b2 & Hr & Hwf2 & Hc2); try lia.
  exists b2. split; [exact Hwf2|]. split; [exact Hc2|].
  intros k. rewrite Hw. simpl. rewrite Hr. reflexivity.
Qed.

(** The single-threaded part of the test passes every assertion and
    ends with an empty buffer. *)
Lemma ring_buf_test_sequential_pass fuel b0 :
  wf b0 → contents b0 = [] → (Z.to_nat Cap ≤ fuel)%nat →
  ∃ b, ring_buf_test_sequential ring_buf fuel b0 = Pass b ∧
       wf b ∧ Base.empty b = true.
Proof.
  intros Hwf0 Hc0 Hfuel. unfold ring_buf_test_sequential.
  assert (Hcap : ∀ b, Base.capacity b = Cap) by apply (ref_capacity _ _ _ _ R).
  assert (Hsub : SizeT.sub Cap 1 = Cap - 1).
  { apply SizeTFacts.sub_small. pose proof int_max_lt_size_max.
    unfold SizeT.SIZE_MAX in *. lia. }
  cbv zeta. cbn [fst].
  rewrite Hcap, (size_t_add_small Cap 1) by lia.
  destruct (round_pass fuel (Cap + 1) 1 b0 false Hwf0 Hc0)
    as (b2 & Hwf2 & Hc2 & ->); try lia.
  cbn [fst]. rewrite Hcap, (size_t_add_small Cap 10) by lia.
  destruct (round_pass fuel (Cap + 10) 10 b2 false Hwf2 Hc2)
    as (b4 & Hwf4 & Hc4 & ->); try lia.
  cbn [fst]. rewrite Hcap.
  destruct (round_pass fuel Cap 0 b4 false Hwf4 Hc4)
    as (b6 & Hwf6 & Hc6 & ->); try lia.
  cbn [fst]. rewrite Hcap, Hsub.
  destruct (round_pass fuel (Cap - 1) 0 b6 false Hwf6 Hc6)
    as (b8 & Hwf8 & Hc8 & ->); try lia.
  cbn [fst].
  destruct (ref_write _ _ _ _ R 1 b8 Hwf8) as (b9 & Hw & Hwf9 & _).
  rewrite Hw. simpl.
  destruct (ref_clear _ _ _ _ R b9 Hwf9) as (Hwf10 & Hc10).
  destruct (RefinementFacts.clear_empty _ Cap _ _ Cap_pos R b9 Hwf9) as (He & _).
  rewrite He. exists (Base.clear b9). auto.
Qed.

End Test.
End HarnessFacts.

(* ================================================================= *)
(** * The properties of the specification

    [Cap] is the nominal capacity.  The hypothesis [Cap < SIZE_MAX] says
    that the physical capacity [Cap + 1] of the guard-element buffer is a
    [size_t]. *)

(** C1: for every capacity [Cap >= 1] and every [N <= Cap] writes on an
    empty buffer of either strategy (a new one, or any reachable state
    in which [empty()] holds), [size()] returns [N], [full()] returns
    whether [N = Cap], and [N] reads then return the written values in
    write order and leave the buffer empty. *)
Theorem fill_within_capacity (T : Type) (dflt : T) (Cap : Z) (vs : list T) :
  1 ≤ Cap < SizeT.SIZE_MAX →
  Z.of_nat (length vs) ≤ Cap →
  (∀ s0,
     reachable_from (GuardElem.ring_buffer Cap) (GuardElem.init Cap dflt) s0 →
     GuardElem.empty s0 = true →
     results (GuardElem.ring_buffer Cap)
       (map Write vs ++ [Size; Full] ++ replicate (length vs) Read
          ++ [Empty; Size])
       s0
     = Done (replicate (length vs) RVoid
             ++ [RSize (Z.of_nat (length vs));
                 RBool (Z.of_nat (length vs) =? Cap)]
             ++ map (λ v, RRead (Some v)) vs
             ++ [RBool true; RSize 0])) ∧
  (∀ s0,
     reachable_from (FullFlag.ring_buffer Cap) (FullFlag.init Cap dflt) s0 →
     FullFlag.empty s0 = true →
     results (FullFlag.ring_buffer Cap)
       (map Write vs ++ [Size; Full] ++ replicate (length vs) Read
          ++ [Empty; Size])
       s0
     = Done (replicate (length vs) RVoid
             ++ [RSize (Z.of_nat (length vs));
                 RBool (Z.of_nat (length vs) =? Cap)]
             ++ map (λ v, RRead (Some v)) vs
             ++ [RBool true; RSize 0])).
Proof.
  intros HCap HN.
  assert (Hpos : 1 ≤ Cap) by lia.
  assert (HCap' : 1 ≤ Cap ≤ SizeT.SIZE_MAX) by lia.
  pose proof (ContractFacts.keep_all Cap Hpos vs HN) as Hkeep.
  split; intros s0 Hreach Hempty.
  - pose proof (GuardElemFacts.guard_refines (T:=T) Cap HCap) as R.
    pose proof (GuardElemFacts.guard_reachable_wf Cap HCap dflt s0 Hreach) as Hwf.
    pose proof (RefinementFacts.fill_report_drain_refines _ Cap _ _ Hpos R vs s0
                  Hwf (RefinementFacts.empty_contents _ Cap _ _ R s0 Hwf Hempty))
      as H.
    rewrite Hkeep in H. exact H.
  - pose proof (FullFlagFacts.flag_refines (T:=T) Cap HCap') as R.
    pose proof (FullFlagFacts.flag_reachable_wf Cap HCap' dflt s0 Hreach) as Hwf.
    pose proof (RefinementFacts.fill_report_drain_refines _ Cap _ _ Hpos R vs s0
                  Hwf (RefinementFacts.empty_contents _ Cap _ _ R s0 Hwf Hempty))
      as H.
    rewrite Hkeep in H. exact H.
Qed.

(** C1 at capacity 3: two writes on a new guard-element buffer. *)
Lemma fill_within_capacity_witness :
  1 ≤ 3 < SizeT.SIZE_MAX ∧
  results (GuardElem.ring_buffer 3)
    [Write 10; Write 20; Size; Full; Read; Read; Empty; Size]
    (GuardElem.init 3 0)
  = Done [RVoid; RVoid; RSize 2; RBool false;
          RRead (Some 10); RRead (Some 20); RBool true; RSize 0].
Proof.
  assert (H : 1 ≤ 3 < SizeT.SIZE_MAX)
    by (vm_compute; split; [discriminate | reflexivity]).
  split; [exact H|].
  apply (proj1 (fill_within_capacity Z 0 3 [10; 20] H ltac:(simpl; lia))).
  - exists [], []. reflexivity.
  - reflexivity.
Defined.

(** C2: for every capacity [Cap >= 1] and every [N > Cap] writes on an
    empty buffer of either strategy, [size()] returns [Cap] and [Cap]
    reads return the last [Cap] written values in write order, from the
    [(N - Cap + 1)]-th on; and a write into a full buffer advances the
    read cursor by one position before it advances the write cursor, which
    discards the oldest element. *)
Theorem fill_beyond_capacity (T : Type) (dflt : T) (Cap : Z) (vs : list T) :
  1 ≤ Cap < SizeT.SIZE_MAX →
  Cap < Z.of_nat (length vs) →
  (∀ s0,
     reachable_from (GuardElem.ring_buffer Cap) (GuardElem.init Cap dflt) s0 →
     GuardElem.empty s0 = true →
     results (GuardElem.ring_buffer Cap)
       (map Write vs ++ [Size; Full] ++ replicate (Z.to_nat Cap) Read
          ++ [Empty; Size])
       s0
     = Done (replicate (length vs) RVoid
             ++ [RSize Cap; RBool true]
             ++ map (λ v, RRead (Some v)) (drop (length vs - Z.to_nat Cap) vs)
             ++ [RBool true; RSize 0])) ∧
  (∀ s0,
     reachable_from (FullFlag.ring_buffer Cap) (FullFlag.init Cap dflt) s0 →
     FullFlag.empty s0 = true →
     results (FullFlag.ring_buffer Cap)
       (map Write vs ++ [Size; Full] ++ replicate (Z.to_nat Cap) Read
          ++ [Empty; Size])
       s0
     = Done (replicate (length vs) RVoid
             ++ [RSize Cap; RBool true]
             ++ map (λ v, RRead (Some v)) (drop (length vs - Z.to_nat Cap) vs)
             ++ [RBool true; RSize 0])) ∧
  (∀ s data,
     reachable_from (GuardElem.ring_buffer Cap) (GuardElem.init Cap dflt) s →
     GuardElem.full Cap s = true →
     ∃ s1, GuardElem.store data s = Done s1 ∧
       GuardElem.tail (GuardElem.move_tail_if_full Cap s1)
         = GuardElem.idx_increment Cap (GuardElem.tail s) ∧
       GuardElem.head (GuardElem.move_tail_if_full Cap s1) = GuardElem.head s ∧
       GuardElem.write Cap data s
         = Done (GuardElem.move_head Cap (GuardElem.move_tail_if_full Cap s1)) ∧
       GuardElem.head (GuardElem.move_head Cap (GuardElem.move_tail_if_full Cap s1))
         = GuardElem.idx_increment Cap (GuardElem.head s) ∧
       GuardElem.tail (GuardElem.move_head Cap (GuardElem.move_tail_if_full Cap s1))
         = GuardElem.idx_increment Cap (GuardElem.tail s) ∧
       GuardElem.contents Cap
           (GuardElem.move_head Cap (GuardElem.move_tail_if_full Cap s1))
         = drop 1 (GuardElem.contents Cap s) ++ [data]) ∧
  (∀ s data,
     reachable_from (FullFlag.ring_buffer Cap) (FullFlag.init Cap dflt) s →
     FullFlag.full s = true →
     ∃ s1, FullFlag.store data s = Done s1 ∧
       FullFlag.tail (FullFlag.move_tail_if_full Cap s1)
         = FullFlag.idx_increment Cap (FullFlag.tail s) ∧
       FullFlag.head (FullFlag.move_tail_if_full Cap s1) = FullFlag.head s ∧
       FullFlag.write Cap data s
         = Done (FullFlag.update_full
                   (FullFlag.move_head Cap (FullFlag.move_tail_if_full Cap s1))) ∧
       FullFlag.head
           (FullFlag.update_full
              (FullFlag.move_head Cap (FullFlag.move_tail_if_full Cap s1)))
         = FullFlag.idx_increment Cap (FullFlag.head s) ∧
       FullFlag.tail
           (FullFlag.update_full
              (FullFlag.move_head Cap (FullFlag.move_tail_if_full Cap s1)))
         = FullFlag.idx_increment Cap (FullFlag.tail s) ∧
       FullFlag.contents Cap
           (FullFlag.update_full
              (FullFlag.move_head Cap (FullFlag.move_tail_if_full Cap s1)))
         = drop 1 (FullFlag.contents Cap s) ++ [data]).
Proof.
  intros HCap HN.
  assert (Hpos : 1 ≤ Cap) by lia.
  assert (HCap' : 1 ≤ Cap ≤ SizeT.SIZE_MAX) by lia.
  pose proof (ContractFacts.keep_length_full Cap Hpos vs ltac:(lia)) as Hlen.
  assert (Hn : length (Contract.newest Cap vs) = Z.to_nat Cap) by lia.
  split; [|split; [|split]].
  - intros s0 Hreach Hempty.
    pose proof (GuardElemFacts.guard_refines (T:=T) Cap HCap) as R.
    pose proof (GuardElemFacts.guard_reachable_wf Cap HCap dflt s0 Hreach) as Hwf.
    pose proof (RefinementFacts.fill_report_drain_refines _ Cap _ _ Hpos R vs s0
                  Hwf (RefinementFacts.empty_contents _ Cap _ _ R s0 Hwf Hempty))
      as H.
    unfold fill_report_drain_results in H.
    rewrite Hlen, Hn, Z.eqb_refl in H. exact H.
  - intros s0 Hreach Hempty.
    pose proof (FullFlagFacts.flag_refines (T:=T) Cap HCap') as R.
    pose proof (FullFlagFacts.flag_reachable_wf Cap HCap' dflt s0 Hreach) as Hwf.
    pose proof (RefinementFacts.fill_report_drain_refines _ Cap _ _ Hpos R vs s0
                  Hwf (RefinementFacts.empty_contents _ Cap _ _ R s0 Hwf Hempty))
      as H.
    unfold fill_report_drain_results in H.
    rewrite Hlen, Hn, Z.eqb_refl in H. exact H.
  - intros s data Hreach Hfull.
    apply (GuardElemFacts.guard_overwrite_step Cap HCap); [|exact Hfull].
    exact (GuardElemFacts.guard_reachable_wf Cap HCap dflt s Hreach).
  - intros s data Hreach Hfull.
    apply (FullFlagFacts.flag_overwrite_step Cap HCap'); [|exact Hfull].
    exact (FullFlagFacts.flag_reachable_wf Cap HCap' dflt s Hreach).
Qed.

(** C2 at capacity 2: three writes on a new full-flag buffer. *)
Lemma fill_beyond_capacity_witness :
  1 ≤ 2 < SizeT.SIZE_MAX ∧
  results (FullFlag.ring_buffer 2)
    [Write 10; Write 20; Write 30; Size; Full; Read; Read; Empty; Size]
    (FullFlag.init 2 0)
  = Done [RVoid; RVoid; RVoid; RSize 2; RBool true;
          RRead (Some 20); RRead (Some 30); RBool true; RSize 0].
Proof.
  assert (H : 1 ≤ 2 < SizeT.SIZE_MAX)
    by (vm_compute; split; [discriminate | reflexivity]).
  split; [exact H|].
  apply (proj1 (proj2 (fill_beyond_capacity Z 0 2 [10; 20; 30] H
                         ltac:(simpl; lia)))).
  - exists [], []. reflexivity.
  - reflexivity.
Defined.

(** C3: for every capacity [Cap >= 1] and every finite sequence of calls
    of [read], [write], [clear], [full], [empty], [size] and [capacity] on
    new buffers, the guard-element and the full-flag buffer return the
    same result at every call. *)
Theorem strategies_equivalent (T : Type) (dflt : T) (Cap : Z) (os : list (op T)) :
  1 ≤ Cap < SizeT.SIZE_MAX →
  ∃ rs,
    results (GuardElem.ring_buffer Cap) os (GuardElem.init Cap dflt) = Done rs ∧
    results (FullFlag.ring_buffer Cap) os (FullFlag.init Cap dflt) = Done rs.
Proof.
  intros HCap.
  assert (HCap' : 1 ≤ Cap ≤ SizeT.SIZE_MAX) by lia.
  destruct (ContractFacts.run_total Cap os []) as [rs Hrs].
  exists rs. split.
  - rewrite (RefinementFacts.results_refines _ Cap _ _
               (GuardElemFacts.guard_refines Cap HCap))
      by apply (GuardElemFacts.guard_init_wf Cap HCap).
    rewrite (GuardElemFacts.guard_init_contents Cap HCap).
    unfold results. rewrite Hrs. reflexivity.
  - rewrite (RefinementFacts.results_refines _ Cap _ _
               (FullFlagFacts.flag_refines Cap HCap'))
      by apply (FullFlagFacts.flag_init_wf Cap HCap').
    rewrite (FullFlagFacts.flag_init_contents Cap HCap').
    unfold results. rewrite Hrs. reflexivity.
Qed.

(** C3 at capacity 1, on a sequence that uses every operation. *)
Lemma strategies_equivalent_witness :
  1 ≤ 1 < SizeT.SIZE_MAX ∧
  ∃ rs,
    results (GuardElem.ring_buffer 1)
      [Write 5; Full; Write 6; Size; Read; Read; Clear; Empty; Capacity]
      (GuardElem.init 1 0) = Done rs ∧
    results (FullFlag.ring_buffer 1)
      [Write 5; Full; Write 6; Size; Read; Read; Clear; Empty; Capacity]
      (FullFlag.init 1 0) = Done rs.
Proof.
  assert (H : 1 ≤ 1 < SizeT.SIZE_MAX)
    by (vm_compute; split; [discriminate | reflexivity]).
  split; [exact H|].
  exact (strategies_equivalent Z 0 1
           [Write 5; Full; Write 6; Size; Read; Read; Clear; Empty; Capacity] H).
Defined.

(** C4: in every state reached from a new buffer of either strategy by a
    sequence of calls, [size()] lies between [0] and [capacity()] and is
    the number of elements written, not yet consumed and not discarded,
    whatever the number of storage slots ([Cap + 1] or [Cap]). *)
Theorem size_counts_survivors (T : Type) (dflt : T) (Cap : Z) (os : list (op T)) :
  1 ≤ Cap < SizeT.SIZE_MAX →
  (∃ rs s,
     run (GuardElem.ring_buffer Cap) os (GuardElem.init Cap dflt) = Done (rs, s) ∧
     0 ≤ GuardElem.size Cap s ≤ GuardElem.capacity Cap s ∧
     GuardElem.size Cap s = Z.of_nat (length (Contract.survivors Cap os)) ∧
     Z.of_nat (length (GuardElem.buf s)) = Cap + 1) ∧
  (∃ rs s,
     run (FullFlag.ring_buffer Cap) os (FullFlag.init Cap dflt) = Done (rs, s) ∧
     0 ≤ FullFlag.size Cap s ≤ FullFlag.capacity Cap s ∧
     FullFlag.size Cap s = Z.of_nat (length (Contract.survivors Cap os)) ∧
     Z.of_nat (length (FullFlag.buf s)) = Cap).
Proof.
  intros HCap.
  assert (HCap' : 1 ≤ Cap ≤ SizeT.SIZE_MAX) by lia.
  split.
  - pose proof (GuardElemFacts.guard_refines (T:=T) Cap HCap) as R.
    pose proof (GuardElemFacts.guard_init_wf Cap HCap dflt) as Hwf0.
    destruct (RefinementFacts.run_refines _ Cap _ _ R os _ Hwf0)
      as (rs & s & Hrun & Hwf & _).
    destruct (RefinementFacts.run_contents _ Cap _ _ R os _ rs s Hwf0
                (GuardElemFacts.guard_init_contents Cap HCap dflt) Hrun)
      as (_ & Hc).
    exists rs, s. split; [exact Hrun|].
    pose proof (GuardElemFacts.guard_size_range Cap HCap s Hwf).
    pose proof (GuardElemFacts.guard_contents_length Cap HCap s Hwf) as Hl.
    rewrite Hc in Hl. apply (GuardElemFacts.wf_unfold Cap HCap) in Hwf.
    unfold GuardElem.capacity. repeat split; lia.
  - pose proof (FullFlagFacts.flag_refines (T:=T) Cap HCap') as R.
    pose proof (FullFlagFacts.flag_init_wf Cap HCap' dflt) as Hwf0.
    destruct (RefinementFacts.run_refines _ Cap _ _ R os _ Hwf0)
      as (rs & s & Hrun & Hwf & _).
    destruct (RefinementFacts.run_contents _ Cap _ _ R os _ rs s Hwf0
                (FullFlagFacts.flag_init_contents Cap HCap' dflt) Hrun)
      as (_ & Hc).
    exists rs, s. split; [exact Hrun|].
    pose proof (FullFlagFacts.flag_size_range Cap HCap' s Hwf).
    pose proof (FullFlagFacts.flag_contents_length Cap HCap' s Hwf) as Hl.
    rewrite Hc in Hl. destruct Hwf as (_ & _ & Hb & _).
    unfold FullFlag.capacity. repeat split; lia.
Qed.

(** C4 at capacity 2, after three writes and a read. *)
Lemma size_counts_survivors_witness :
  1 ≤ 2 < SizeT.SIZE_MAX ∧
  ∃ rs s,
    run (GuardElem.ring_buffer 2) [Write 1; Write 2; Write 3; Read; Size]
      (GuardElem.init 2 0) = Done (rs, s) ∧
    0 ≤ GuardElem.size 2 s ≤ GuardElem.capacity 2 s ∧
    GuardElem.size 2 s
      = Z.of_nat (length (Contract.survivors 2
                            [Write 1; Write 2; Write 3; Read; Size])) ∧
    Z.of_nat (length (GuardElem.buf s)) = 2 + 1.
Proof.
  assert (H : 1 ≤ 2 < SizeT.SIZE_MAX)
    by (vm_compute; split; [discriminate | reflexivity]).
  split; [exact H|].
  exact (proj1 (size_counts_survivors Z 0 2
                  [Write 1; Write 2; Write 3; Read; Size] H)).
Defined.

(** C5, as stated, fails: [read] returns the oldest element that is live
    after the write, which need not be [v].  Capacity 2, after
    [write(1)]: [write(2)] then [read()] returns 1. *)
Lemma write_then_read_counterexample :
  ¬ (∀ (s : GuardElem.t Z) (v : Z),
       reachable_from (GuardElem.ring_buffer 2) (GuardElem.init 2 0) s →
       ∃ s1 s2, GuardElem.write 2 v s = Done s1 ∧
                GuardElem.read 2 s1 = Done (Some v, s2)) ∧
  ¬ (∀ (s : FullFlag.t Z) (v : Z),
       reachable_from (FullFlag.ring_buffer 2) (FullFlag.init 2 0) s →
       ∃ s1 s2, FullFlag.write 2 v s = Done s1 ∧
                FullFlag.read 2 s1 = Done (Some v, s2)).
Proof.
  split; intros H.
  - destruct (H (GuardElem.Build 1 0 [1; 0; 0]) 2) as (s1 & s2 & Hw & Hr).
    + exists [Write 1], [RVoid]. reflexivity.
    + vm_compute in Hw. injection Hw as <-. vm_compute in Hr. discriminate.
  - destruct (H (FullFlag.Build 1 0 [1; 0] false) 2) as (s1 & s2 & Hw & Hr).
    + exists [Write 1], [RVoid]. reflexivity.
    + vm_compute in Hw. injection Hw as <-. vm_compute in Hr. discriminate.
Qed.

(** C5, amended: from every reachable state of either strategy in which
    the buffer is empty, and from every reachable state when the capacity
    is 1, [write(v)] followed at once by [read()] returns [v]. *)
Theorem write_then_read_on_empty (T : Type) (dflt : T) (Cap : Z) :
  1 ≤ Cap < SizeT.SIZE_MAX →
  (∀ s v,
     reachable_from (GuardElem.ring_buffer Cap) (GuardElem.init Cap dflt) s →
     GuardElem.empty s = true ∨ Cap = 1 →
     ∃ s1 s2, GuardElem.write Cap v s = Done s1 ∧
              GuardElem.read Cap s1 = Done (Some v, s2)) ∧
  (∀ s v,
     reachable_from (FullFlag.ring_buffer Cap) (FullFlag.init Cap dflt) s →
     FullFlag.empty s = true ∨ Cap = 1 →
     ∃ s1 s2, FullFlag.write Cap v s = Done s1 ∧
              FullFlag.read Cap s1 = Done (Some v, s2)).
Proof.
  intros HCap.
  assert (Hpos : 1 ≤ Cap) by lia.
  assert (HCap' : 1 ≤ Cap ≤ SizeT.SIZE_MAX) by lia.
  split; intros s v Hreach Hcase.
  - apply (RefinementFacts.write_read_roundtrip _ Cap _ _
             (GuardElemFacts.guard_refines Cap HCap) s v); [|exact Hcase].
    exact (GuardElemFacts.guard_reachable_wf Cap HCap dflt s Hreach).
  - apply (RefinementFacts.write_read_roundtrip _ Cap _ _
             (FullFlagFacts.flag_refines Cap HCap') s v); [|exact Hcase].
    exact (FullFlagFacts.flag_reachable_wf Cap HCap' dflt s Hreach).
Qed.

(** C5, amended, on a new buffer of capacity 3. *)
Lemma write_then_read_on_empty_witness :
  1 ≤ 3 < SizeT.SIZE_MAX ∧
  ∃ s1 s2, GuardElem.write 3 7 (GuardElem.init 3 0) = Done s1 ∧
           GuardElem.read 3 s1 = Done (Some 7, s2).
Proof.
  assert (H : 1 ≤ 3 < SizeT.SIZE_MAX)
    by (vm_compute; split; [discriminate | reflexivity]).
  split; [exact H|].
  apply (proj1 (write_then_read_on_empty Z 0 3 H)).
  - exists [], []. reflexivity.
  - left. reflexivity.
Defined.

(** C6, as stated, fails: [clear] does not leave [head] unchanged.
    Capacity 2, after [write(1)]: [head = 1], [tail = 0]; after [clear()]
    both are 0. *)
Lemma clear_keeps_head_counterexample :
  ¬ (∀ s : GuardElem.t Z,
       reachable_from (GuardElem.ring_buffer 2) (GuardElem.init 2 0) s →
       GuardElem.tail (GuardElem.clear s) = GuardElem.head s ∧
       GuardElem.head (GuardElem.clear s) = GuardElem.head s) ∧
  ¬ (∀ s : FullFlag.t Z,
       reachable_from (FullFlag.ring_buffer 2) (FullFlag.init 2 0) s →
       FullFlag.tail (FullFlag.clear s) = FullFlag.head s ∧
       FullFlag.head (FullFlag.clear s) = FullFlag.head s ∧
       FullFlag._full (FullFlag.clear s) = false).
Proof.
  split; intros H.
  - destruct (H (GuardElem.Build 1 0 [1; 0; 0])) as (Ht & _).
    + exists [Write 1], [RVoid]. reflexivity.
    + simpl in Ht. discriminate.
  - destruct (H (FullFlag.Build 1 0 [1; 0] false)) as (Ht & _).
    + exists [Write 1], [RVoid]. reflexivity.
    + simpl in Ht. discriminate.
Qed.

(** C6, amended: in every reachable state of either strategy, [clear()]
    resets the buffer to the empty state in one step by setting [head]
    equal to [tail], leaving [tail] and the storage unchanged, and, in the
    full-flag strategy, setting the full flag to false. *)
Theorem clear_sets_head_to_tail (T : Type) (dflt : T) (Cap : Z) :
  1 ≤ Cap < SizeT.SIZE_MAX →
  (∀ s,
     reachable_from (GuardElem.ring_buffer Cap) (GuardElem.init Cap dflt) s →
     GuardElem.head (GuardElem.clear s) = GuardElem.tail s ∧
     GuardElem.tail (GuardElem.clear s) = GuardElem.tail s ∧
     GuardElem.buf (GuardElem.clear s) = GuardElem.buf s ∧
     GuardElem.empty (GuardElem.clear s) = true ∧
     GuardElem.full Cap (GuardElem.clear s) = false ∧
     GuardElem.size Cap (GuardElem.clear s) = 0) ∧
  (∀ s,
     reachable_from (FullFlag.ring_buffer Cap) (FullFlag.init Cap dflt) s →
     FullFlag.head (FullFlag.clear s) = FullFlag.tail s ∧
     FullFlag.tail (FullFlag.clear s) = FullFlag.tail s ∧
     FullFlag.buf (FullFlag.clear s) = FullFlag.buf s ∧
     FullFlag._full (FullFlag.clear s) = false ∧
     FullFlag.empty (FullFlag.clear s) = true ∧
     FullFlag.full (FullFlag.clear s) = false ∧
     FullFlag.size Cap (FullFlag.clear s) = 0).
Proof.
  intros HCap.
  assert (Hpos : 1 ≤ Cap) by lia.
  assert (HCap' : 1 ≤ Cap ≤ SizeT.SIZE_MAX) by lia.
  split; intros s Hreach.
  - pose proof (GuardElemFacts.guard_reachable_wf Cap HCap dflt s Hreach) as Hwf.
    destruct (RefinementFacts.clear_empty _ Cap _ _ Hpos
                (GuardElemFacts.guard_refines Cap HCap) s Hwf) as (He & Hf & Hs).
    repeat split; assumption.
  - pose proof (FullFlagFacts.flag_reachable_wf Cap HCap' dflt s Hreach) as Hwf.
    destruct (RefinementFacts.clear_empty _ Cap _ _ Hpos
                (FullFlagFacts.flag_refines Cap HCap') s Hwf) as (He & Hf & Hs).
    repeat split; assumption.
Qed.

(** C6, amended, at capacity 2 after one write. *)
Lemma clear_sets_head_to_tail_witness :
  1 ≤ 2 < SizeT.SIZE_MAX ∧
  GuardElem.head (GuardElem.clear (GuardElem.Build 1 0 [1; 0; 0])) = 0 ∧
  GuardElem.size 2 (GuardElem.clear (GuardElem.Build 1 0 [1; 0; 0])) = 0.
Proof.
  assert (H : 1 ≤ 2 < SizeT.SIZE_MAX)
    by (vm_compute; split; [discriminate | reflexivity]).
  split; [exact H|].
  destruct (proj1 (clear_sets_head_to_tail Z 0 2 H) (GuardElem.Build 1 0 [1; 0; 0]))
    as (Hh & _ & _ & _ & _ & Hs).
  - exists [Write 1], [RVoid]. reflexivity.
  - split; [exact Hh | exact Hs].
Defined.

(** C7: in every reachable state of the guard-element buffer of capacity
    [Cap >= 1], [empty()] holds exactly when [head = tail], [full()] holds
    exactly when [(head + 1) mod (Cap + 1) = tail], and the two conditions
    never hold together. *)
Theorem guard_empty_full_exclusive (T : Type) (dflt : T) (Cap : Z)
    (s : GuardElem.t T) :
  1 ≤ Cap < SizeT.SIZE_MAX →
  reachable_from (GuardElem.ring_buffer Cap) (GuardElem.init Cap dflt) s →
  (GuardElem.empty s = true ↔ GuardElem.head s = GuardElem.tail s) ∧
  (GuardElem.full Cap s = true ↔
     (GuardElem.head s + 1) mod (Cap + 1) = GuardElem.tail s) ∧
  ¬ (GuardElem.head s = GuardElem.tail s ∧
     (GuardElem.head s + 1) mod (Cap + 1) = GuardElem.tail s) ∧
  ¬ (GuardElem.empty s = true ∧ GuardElem.full Cap s = true).
Proof.
  intros HCap Hreach.
  pose proof (GuardElemFacts.guard_reachable_wf Cap HCap dflt s Hreach) as Hwf.
  apply (GuardElemFacts.wf_unfold Cap HCap) in Hwf. destruct Hwf as (Hh & Ht & _).
  assert (HP : 1 ≤ Cap + 1 ≤ SizeT.SIZE_MAX) by lia.
  assert (Hfull : GuardElem.full Cap s = true ↔
                  (GuardElem.head s + 1) mod (Cap + 1) = GuardElem.tail s).
  { unfold GuardElem.full.
    rewrite (GuardElemFacts.guard_idx_increment_next Cap HCap).
    rewrite (RingFacts.next_mod (Cap + 1) HP) by exact Hh. apply Z.eqb_eq. }
  assert (Hempty : GuardElem.empty s = true ↔ GuardElem.head s = GuardElem.tail s)
    by apply Z.eqb_eq.
  assert (Hex : ¬ (GuardElem.head s = GuardElem.tail s ∧
                   (GuardElem.head s + 1) mod (Cap + 1) = GuardElem.tail s)).
  { intros [Heq Hmod]. rewrite <- Heq in Hmod.
    apply (RingFacts.offset_ne (Cap + 1) (GuardElem.head s) 1 Hh); [lia|exact Hmod]. }
  tauto.
Qed.

(** C7 at capacity 1 after one write: the buffer is full, not empty. *)
Lemma guard_empty_full_exclusive_witness :
  1 ≤ 1 < SizeT.SIZE_MAX ∧
  ¬ (GuardElem.empty (GuardElem.Build 1 0 [9; 0]) = true ∧
     GuardElem.full 1 (GuardElem.Build 1 0 [9; 0]) = true).
Proof.
  assert (H : 1 ≤ 1 < SizeT.SIZE_MAX)
    by (vm_compute; split; [discriminate | reflexivity]).
  split; [exact H|].
  apply (guard_empty_full_exclusive Z 0 1 (GuardElem.Build 1 0 [9; 0]) H).
  exists [Write 9], [RVoid]. reflexivity.
Defined.

(** C8: in every reachable state of the full-flag buffer of capacity
    [Cap >= 1], the flag is set exactly when [Cap] elements are live;
    after any write, [write] has set the flag to [head == tail], and
    [head = tail] holds exactly when [Cap] elements are live; after any
    successful read the flag is false. *)
Theorem full_flag_counts_capacity (T : Type) (dflt : T) (Cap : Z)
    (os : list (op T)) :
  1 ≤ Cap ≤ SizeT.SIZE_MAX →
  ∃ rs s,
    run (FullFlag.ring_buffer Cap) os (FullFlag.init Cap dflt) = Done (rs, s) ∧
    (FullFlag._full s = true ↔
       Z.of_nat (length (Contract.survivors Cap os)) = Cap) ∧
    (∀ v, ∃ s',
       FullFlag.write Cap v s = Done s' ∧
       FullFlag._full s' = (FullFlag.head s' =? FullFlag.tail s') ∧
       (FullFlag.head s' = FullFlag.tail s' ↔
          Z.of_nat (length (Contract.survivors Cap (os ++ [Write v]))) = Cap)) ∧
    (∀ x s',
       FullFlag.read Cap s = Done (Some x, s') →
       FullFlag._full s' = false ∧
       Z.of_nat (length (Contract.survivors Cap (os ++ [Read]))) < Cap).
Proof.
  intros HCap.
  pose proof (FullFlagFacts.flag_refines (T:=T) Cap HCap) as R.
  destruct (RefinementFacts.run_refines _ Cap _ _ R os _
              (FullFlagFacts.flag_init_wf Cap HCap dflt))
    as (rs & s & Hrun & Hwf & _).
  exists rs, s. split; [exact Hrun|].
  destruct (FullFlagFacts.flag_full_survivors Cap HCap dflt os rs s Hrun)
    as (_ & _ & Hiff).
  split; [exact Hiff|]. split.
  - intros v.
    destruct (FullFlagFacts.flag_write_refines Cap HCap v s Hwf)
      as (s' & Hw & _ & _).
    exists s'. split; [exact Hw|].
    assert (Hflag : FullFlag._full s' = (FullFlag.head s' =? FullFlag.tail s')).
    { unfold FullFlag.write in Hw.
      destruct (FullFlag.store v s) as [s1|]; simpl in Hw; [|discriminate].
      injection Hw as <-. reflexivity. }
    split; [exact Hflag|].
    assert (Hrun' : run (FullFlag.ring_buffer Cap) (os ++ [Write v])
                      (FullFlag.init Cap dflt) = Done (rs ++ [RVoid], s')).
    { eapply CallFacts.run_snoc; [exact Hrun|]. simpl. rewrite Hw. reflexivity. }
    destruct (FullFlagFacts.flag_full_survivors Cap HCap dflt _ _ _ Hrun')
      as (_ & _ & Hiff').
    rewrite <- Hiff', Hflag. symmetry. apply Z.eqb_eq.
  - intros x s' Hr.
    assert (Hflag : FullFlag._full s' = false).
    { unfold FullFlag.read in Hr. destruct (FullFlag.empty s); [discriminate|].
      destruct (StdArray.get (FullFlag.buf s) (FullFlag.tail s));
        simpl in Hr; [|discriminate].
      injection Hr as _ <-. reflexivity. }
    split; [exact Hflag|].
    assert (Hrun' : run (FullFlag.ring_buffer Cap) (os ++ [Read])
                      (FullFlag.init Cap dflt) = Done (rs ++ [RRead (Some x)], s')).
    { eapply CallFacts.run_snoc; [exact Hrun|]. simpl. rewrite Hr. reflexivity. }
    destruct (FullFlagFacts.flag_full_survivors Cap HCap dflt _ _ _ Hrun')
      as (_ & Hle & Hiff').
    rewrite Hflag in Hiff'.
    destruct (Z.eq_dec (Z.of_nat (length (Contract.survivors Cap (os ++ [Read])))) Cap)
      as [Heq|Hne]; [|lia].
    apply Hiff' in Heq. discriminate.
Qed.

(** C8 at capacity 2 after three writes. *)
Lemma full_flag_counts_capacity_witness :
  1 ≤ 2 ≤ SizeT.SIZE_MAX ∧
  ∃ rs s,
    run (FullFlag.ring_buffer 2) [Write 1; Write 2; Write 3] (FullFlag.init 2 0)
      = Done (rs, s) ∧
    (FullFlag._full s = true ↔
       Z.of_nat (length (Contract.survivors 2 [Write 1; Write 2; Write 3])) = 2).
Proof.
  assert (H : 1 ≤ 2 ≤ SizeT.SIZE_MAX)
    by (vm_compute; split; discriminate).
  split; [exact H|].
  destruct (full_flag_counts_capacity Z 0 2 [Write 1; Write 2; Write 3] H)
    as (rs & s & Hrun & Hiff & _).
  exists rs, s. split; [exact Hrun | exact Hiff].
Defined.

(** C10: for either strategy with capacity [Cap >= 1], after any [write]
    on a reachable state the buffer is not empty: [empty()] returns false,
    a [read()] returns a value, and the value just written is the last one
    that draining the buffer returns. *)
Theorem write_leaves_data_readable (T : Type) (dflt : T) (Cap : Z) :
  1 ≤ Cap < SizeT.SIZE_MAX →
  (∀ s v,
     reachable_from (GuardElem.ring_buffer Cap) (GuardElem.init Cap dflt) s →
     ∃ s1, GuardElem.write Cap v s = Done s1 ∧
       GuardElem.empty s1 = false ∧
       (∃ x s2, GuardElem.read Cap s1 = Done (Some x, s2)) ∧
       (∃ rs s3,
          run (GuardElem.ring_buffer Cap)
            (replicate (Z.to_nat (GuardElem.size Cap s1)) Read) s1
          = Done (rs ++ [RRead (Some v)], s3))) ∧
  (∀ s v,
     reachable_from (FullFlag.ring_buffer Cap) (FullFlag.init Cap dflt) s →
     ∃ s1, FullFlag.write Cap v s = Done s1 ∧
       FullFlag.empty s1 = false ∧
       (∃ x s2, FullFlag.read Cap s1 = Done (Some x, s2)) ∧
       (∃ rs s3,
          run (FullFlag.ring_buffer Cap)
            (replicate (Z.to_nat (FullFlag.size Cap s1)) Read) s1
          = Done (rs ++ [RRead (Some v)], s3))).
Proof.
  intros HCap.
  assert (Hpos : 1 ≤ Cap) by lia.
  assert (HCap' : 1 ≤ Cap ≤ SizeT.SIZE_MAX) by lia.
  split; intros s v Hreach.
  - apply (RefinementFacts.write_not_empty _ Cap _ _
             (GuardElemFacts.guard_refines Cap HCap) s v).
    exact (GuardElemFacts.guard_reachable_wf Cap HCap dflt s Hreach).
  - apply (RefinementFacts.write_not_empty _ Cap _ _
             (FullFlagFacts.flag_refines Cap HCap') s v).
    exact (FullFlagFacts.flag_reachable_wf Cap HCap' dflt s Hreach).
Qed.

(** C10 at capacity 1, on a full buffer. *)
Lemma write_leaves_data_readable_witness :
  1 ≤ 1 < SizeT.SIZE_MAX ∧
  ∃ s1, FullFlag.write 1 8 (FullFlag.Build 0 0 [7] true) = Done s1 ∧
        FullFlag.empty s1 = false.
Proof.
  assert (H : 1 ≤ 1 < SizeT.SIZE_MAX)
    by (vm_compute; split; [discriminate | reflexivity]).
  split; [exact H|].
  destruct (proj2 (write_leaves_data_readable Z 0 1 H)
                  (FullFlag.Build 0 0 [7] true) 8) as (s1 & Hw & He & _).
  - exists [Write 7], [RVoid]. reflexivity.
  - exists s1. split; [exact Hw | exact He].
Defined.

(** ** Threads

    A thread that runs alone executes the member function of the
    sequential embedding. *)

Module ConcurrentFacts.
Import Concurrent.
Section Alone.
Context {T : Type} (Cap : Z).

Lemma guard_write_alone (data : T) s :
  shared <$> run_schedule (replicate 8 0%nat)
               (Config s None [call (guard_write Cap data)])
  = to_option (GuardElem.write Cap data s).
Proof.
  unfold GuardElem.write, GuardElem.move_tail_if_full.
  cbv -[GuardElem.store GuardElem.full GuardElem.move_tail GuardElem.move_head].
  destruct (GuardElem.store data s) as [s1|]; [|reflexivity].
  destruct (GuardElem.full Cap s1); reflexivity.
Qed.

Lemma guard_read_alone (s : GuardElem.t T) :
  (λ c, (res <$> threads c !! 0%nat, shared c))
    <$> run_schedule
          (replicate (if GuardElem.empty s then 6 else 8) 0%nat)
          (Config s None [call (guard_read Cap)])
  = (λ r, (Some (fst r), snd r)) <$> to_option (GuardElem.read Cap s).
Proof.
  unfold GuardElem.read. destruct s as [h t a].
  destruct (GuardElem.empty (GuardElem.Build h t a)) eqn:He;
    cbv -[GuardElem.empty StdArray.get GuardElem.idx_increment];
    rewrite He; [reflexivity|].
  destruct (StdArray.get a t); reflexivity.
Qed.

Lemma flag_write_alone (data : T) s :
  shared <$> run_schedule (replicate 9 0%nat)
               (Config s None [call (flag_write Cap data)])
  = to_option (FullFlag.write Cap data s).
Proof.
  unfold FullFlag.write, FullFlag.move_tail_if_full.
  cbv -[FullFlag.store FullFlag.full FullFlag.move_tail FullFlag.move_head
        FullFlag.update_full].
  destruct (FullFlag.store data s) as [s1|]; [|reflexivity].
  destruct (FullFlag.full s1); reflexivity.
Qed.

Lemma flag_read_alone (s : FullFlag.t T) :
  (λ c, (res <$> threads c !! 0%nat, shared c))
    <$> run_schedule
          (replicate (if FullFlag.empty s then 6 else 9) 0%nat)
          (Config s None [call (flag_read Cap)])
  = (λ r, (Some (fst r), snd r)) <$> to_option (FullFlag.read Cap s).
Proof.
  unfold FullFlag.read. destruct s as [h t a f].
  destruct (FullFlag.empty (FullFlag.Build h t a f)) eqn:He;
    cbv -[FullFlag.empty StdArray.get FullFlag.idx_increment];
    rewrite He; [reflexivity|].
  destruct (StdArray.get a t); reflexivity.
Qed.

End Alone.
End ConcurrentFacts.

(** C9 fails on the code.  The lock statement of every member function
    releases [acces_mutex] before the function touches [head], [tail] or
    [buf], so no access happens with the mutex held; calls from two
    threads interleave between two statements of a body:
    - two concurrent [write]s store into the same slot, and the buffer
      ends with one written value lost and a slot never written counted
      as live, which neither order of the two calls produces;
    - two concurrent [read]s return the same element, and the next one is
      never returned.
    A body that did hold the mutex up to its return would block for ever
    in its call to [full()], on the mutex it already owns. *)
Theorem mutex_released_before_access :
  (∀ (T : Type) (Cap : Z) (data : T),
     Concurrent.locked_throughout false (Concurrent.guard_write Cap data) = false ∧
     Concurrent.locked_throughout false (Concurrent.guard_read (T:=T) Cap) = false ∧
     Concurrent.locked_throughout false (Concurrent.flag_write Cap data) = false ∧
     Concurrent.locked_throughout false (Concurrent.flag_read (T:=T) Cap) = false) ∧
  (* after the lock statement of thread 0 the mutex is free *)
  Concurrent.mutex
    <$> Concurrent.run_schedule [0; 0]%nat Concurrent.two_guard_writers
  = Some None ∧
  (* the two orders of the calls *)
  Concurrent.shared
    <$> Concurrent.run_schedule (replicate 8 0 ++ replicate 8 1)%nat
          Concurrent.two_guard_writers
  = Some (GuardElem.Build 2 0 [1; 2; 0]) ∧
  Concurrent.shared
    <$> Concurrent.run_schedule (replicate 8 1 ++ replicate 8 0)%nat
          Concurrent.two_guard_writers
  = Some (GuardElem.Build 2 0 [2; 1; 0]) ∧
  (* thread 1 stores between the store and the cursor update of thread 0 *)
  Concurrent.shared
    <$> Concurrent.run_schedule
          [0; 0; 0; 1; 1; 1; 0; 0; 0; 0; 0; 1; 1; 1; 1; 1]%nat
          Concurrent.two_guard_writers
  = Some (GuardElem.Build 2 0 [2; 0; 0]) ∧
  Concurrent.shared
    <$> Concurrent.run_schedule
          [0; 0; 0; 1; 1; 1; 0; 0; 0; 0; 0; 0; 1; 1; 1; 1; 1; 1]%nat
          Concurrent.two_flag_writers
  = Some (FullFlag.Build 0 0 [2; 0] true) ∧
  (* two reads: in either order, and interleaved *)
  (λ c, (Concurrent.res <$> Concurrent.threads c, GuardElem.empty (Concurrent.shared c)))
    <$> Concurrent.run_schedule (replicate 8 0 ++ replicate 8 1)%nat
          Concurrent.two_guard_readers
  = Some ([Some 1; Some 2], true) ∧
  (λ c, (Concurrent.res <$> Concurrent.threads c, GuardElem.empty (Concurrent.shared c)))
    <$> Concurrent.run_schedule
          [0; 0; 0; 0; 0; 0; 0; 1; 1; 1; 1; 1; 1; 1; 0; 1]%nat
          Concurrent.two_guard_readers
  = Some ([Some 1; Some 1], true) ∧
  (* holding the mutex through the nested call to full() *)
  Concurrent.run_schedule [0; 0; 0]%nat
    (Concurrent.Config (GuardElem.init 2 0) None
       [Concurrent.call (Concurrent.guard_write_holding 2 1)])
  = None.
Proof.
  split.
  - intros T Cap data. repeat split; reflexivity.
  - vm_compute. repeat split; reflexivity.
Qed.

(* ================================================================= *)
(** * Further properties of the code *)

(** ** More on cursors and windows *)

Module RingLaws.
Section Ring.
Context {T : Type} (P : Z).
Hypothesis P_range : 1 ≤ P ≤ SizeT.SIZE_MAX.
Implicit Types (a : list T) (i j t : Z) (n k : nat).

Lemma next_inj i j :
  0 ≤ i < P → 0 ≤ j < P → Ring.next P i = Ring.next P j → i = j.
Proof.
  intros Hi Hj. rewrite !(RingFacts.next_eq P P_range) by assumption.
  split_tests; lia.
Qed.

(** [k] advances move a cursor [k] slots forward on the ring. *)
Lemma iter_next k t :
  0 ≤ t < P → Nat.iter k (Ring.next P) t = (t + Z.of_nat k) mod P.
Proof.
  intros Ht. induction k as [|k IH].
  - simpl. rewrite Z.add_0_r. symmetry. apply Z.mod_small. exact Ht.
  - rewrite Nat.iter_succ, IH.
    rewrite (RingFacts.next_mod P P_range) by (apply Z.mod_pos_bound; lia).
    rewrite Zplus_mod_idemp_l. f_equal. lia.
Qed.

Lemma next_period t :
  0 ≤ t < P → Nat.iter (Z.to_nat P) (Ring.next P) t = t.
Proof.
  intros Ht. rewrite iter_next by exact Ht. rewrite Z2Nat.id by lia.
  transitivity ((t + 1 * P) mod P); [f_equal; lia|].
  rewrite Z_mod_plus_full. apply Z.mod_small. exact Ht.
Qed.

(** A store [m] slots after the cursor leaves a window of at most [m]
    slots alone. *)
Lemma window_store_outside a t n m x :
  0 ≤ t < P → Z.of_nat n ≤ m < P →
  Ring.window P (<[Z.to_nat ((t + m) mod P) := x]> a) t n = Ring.window P a t n.
Proof.
  revert t m. induction n as [|n IH]; intros t m Ht Hm; simpl; [reflexivity|].
  rewrite list_lookup_insert_ne.
  2:{ pose proof (RingFacts.offset_ne P t m Ht ltac:(lia)).
      pose proof (Z.mod_pos_bound (t + m) P ltac:(lia)). lia. }
  destruct (a !! Z.to_nat t) as [y|]; [|reflexivity].
  f_equal.
  replace ((t + m) mod P) with ((Ring.next P t + (m - 1)) mod P).
  - apply IH; [apply (RingFacts.next_range P P_range); exact Ht | lia].
  - rewrite (RingFacts.next_shift P P_range) by exact Ht. f_equal. lia.
Qed.

(** The difference of two cursors, reduced to the ring. *)
Lemma cursor_distance i j :
  0 ≤ i < P → 0 ≤ j < P →
  (i - j) mod P = if j <=? i then i - j else P + i - j.
Proof.
  intros Hi Hj. destruct (Z.leb_spec j i).
  - apply Z.mod_small. lia.
  - transitivity ((P + i - j + (-1) * P) mod P); [f_equal; lia|].
    rewrite Z_mod_plus_full. apply Z.mod_small. lia.
Qed.

End Ring.
End RingLaws.

(** ** More on the guard-element buffer *)

Module GuardElemLaws.
Import GuardElem.
Section Laws.
Context {T : Type} (Cap : Z).
Hypothesis Cap_range : 1 ≤ Cap < SizeT.SIZE_MAX.
Implicit Types (s : t T).

Lemma guard_phys : 1 ≤ Cap + 1 ≤ SizeT.SIZE_MAX.
Proof. lia. Qed.

(** The store of [write] goes to the guard slot: no live element is
    overwritten, whether the buffer is full or not. *)
Lemma guard_store_spares data s :
  wf Cap s →
  ∃ s1, store data s = Done s1 ∧ head s1 = head s ∧ tail s1 = tail s ∧
        contents Cap s1 = contents Cap s.
Proof.
  intros Hwf.
  pose proof (GuardElemFacts.guard_size_range Cap Cap_range s Hwf) as Hsz.
  pose proof (GuardElemFacts.guard_head_offset Cap Cap_range s Hwf) as Hoff.
  apply (GuardElemFacts.wf_unfold Cap Cap_range) in Hwf.
  destruct Hwf as (Hh & Ht & Ha).
  unfold store. rewrite StdArrayFacts.set_in_bounds by lia. simpl.
  eexists; split; [reflexivity|]. simpl. split; [reflexivity|].
  split; [reflexivity|].
  unfold contents. simpl.
  change (size Cap (Build (head s) (tail s) (<[Z.to_nat (head s):=data]> (buf s))))
    with (size Cap (Build (head s) (tail s) (buf s))).
  destruct s as [h t a]. simpl in *.
  rewrite (GuardElemFacts.true_capacity_eq Cap Cap_range).
  rewrite Hoff at 1.
  apply (RingLaws.window_store_outside (Cap + 1) guard_phys); lia.
Qed.

(** On a buffer that is neither empty nor full, [write] then [read] and
    [read] then [write] return the same value and leave the same object. *)
Lemma guard_write_read_commute data s :
  wf Cap s → empty s = false → full Cap s = false →
  ∃ x s',
    (s1 ← write Cap data s; read Cap s1) = Done (Some x, s') ∧
    ('(r, s1) ← read Cap s; s2 ← write Cap data s1; Done (r, s2))
      = Done (Some x, s').
Proof.
  intros Hwf He Hf.
  apply (GuardElemFacts.wf_unfold Cap Cap_range) in Hwf.
  destruct s as [h t a]. unfold empty, full in *. simpl in *.
  destruct Hwf as (Hh & Ht & Ha).
  apply Z.eqb_neq in He, Hf.
  destruct (StdArrayFacts.lookup_in_bounds a t) as [x Hx]; [lia|].
  assert (Hne : idx_increment Cap h ≠ idx_increment Cap t).
  { rewrite !(GuardElemFacts.guard_idx_increment_next Cap Cap_range).
    intros Heq. apply He.
    apply (RingLaws.next_inj (Cap + 1) guard_phys); assumption. }
  exists x, (Build (idx_increment Cap h) (idx_increment Cap t)
               (<[Z.to_nat h:=data]> a)).
  unfold write, read, store, move_tail_if_full, move_head, move_tail,
    empty, full. simpl.
  rewrite !StdArrayFacts.set_in_bounds by lia. simpl.
  rewrite (proj2 (Z.eqb_neq _ _) Hf). simpl.
  rewrite (proj2 (Z.eqb_neq _ _) Hf).
  rewrite (StdArrayFacts.get_lookup a t x) by (lia || exact Hx).
  rewrite (StdArrayFacts.get_lookup (<[Z.to_nat h:=data]> a) t x).
  2: lia.
  2:{ rewrite list_lookup_insert_ne by lia. exact Hx. }
  simpl. rewrite (proj2 (Z.eqb_neq _ _) He). simpl.
  rewrite StdArrayFacts.set_in_bounds by lia. simpl.
  rewrite (proj2 (Z.eqb_neq _ _) Hne). auto.
Qed.

End Laws.
End GuardElemLaws.

(** ** More on the full-flag buffer *)

Module FullFlagLaws.
Import FullFlag.
Section Laws.
Context {T : Type} (Cap : Z).
Hypothesis Cap_range : 1 ≤ Cap ≤ SizeT.SIZE_MAX.
Implicit Types (s : t T).

(** The store of [write] overwrites the oldest element in place when the
    buffer is full, and no live element otherwise. *)
Lemma flag_store_overwrites data s :
  wf Cap s →
  ∃ s1, store data s = Done s1 ∧ head s1 = head s ∧ tail s1 = tail s ∧
        contents Cap s1
          = if full s then data :: drop 1 (contents Cap s)
            else contents Cap s.
Proof.
  intros Hwf.
  pose proof (FullFlagFacts.flag_size_range Cap Cap_range s Hwf) as Hsz.
  pose proof (FullFlagFacts.flag_head_offset Cap Cap_range s Hwf) as Hoff.
  pose proof (FullFlagFacts.flag_size_eq Cap Cap_range s Hwf) as Hse.
  destruct s as [h t a f]. destruct Hwf as (Hh & Ht & Ha & Hf).
  unfold full in *. simpl in *.
  unfold store. simpl. rewrite StdArrayFacts.set_in_bounds by lia. simpl.
  eexists; split; [reflexivity|]. simpl. split; [reflexivity|].
  split; [reflexivity|].
  unfold contents. simpl.
  change (size Cap (Build h t (<[Z.to_nat h:=data]> a) f))
    with (size Cap (Build h t a f)).
  destruct f.
  - (* full: the slot at the read cursor is replaced *)
    rewrite Hse. assert (h = t) by (apply Hf; reflexivity). subst h.
    replace (Z.to_nat Cap) with (S (Z.to_nat (Cap - 1))) by lia.
    destruct (RingFacts.window_cons Cap a t (Z.to_nat (Cap - 1)) Ha Ht)
      as (y & Hy & ->).
    simpl. rewrite list_lookup_insert_eq by lia. f_equal.
    replace (Z.to_nat t) with (Z.to_nat ((Ring.next Cap t + (Cap - 1)) mod Cap)).
    + apply (RingLaws.window_store_outside Cap Cap_range); [|lia].
      apply (RingFacts.next_range Cap Cap_range). exact Ht.
    + f_equal. rewrite (RingFacts.next_shift Cap Cap_range) by exact Ht.
      transitivity ((t + 1 * Cap) mod Cap); [f_equal; lia|].
      rewrite Z_mod_plus_full. apply Z.mod_small. exact Ht.
  - (* not full: the slot at the write cursor is free *)
    assert (size Cap (Build h t a false) < Cap) by (rewrite Hse; split_tests; lia).
    rewrite Hoff at 1.
    apply (RingLaws.window_store_outside Cap Cap_range); lia.
Qed.

(** On a buffer that is neither empty nor full, [write] then [read] and
    [read] then [write] return the same value and leave the same object. *)
Lemma flag_write_read_commute data s :
  wf Cap s → empty s = false → full s = false →
  ∃ x s',
    (s1 ← write Cap data s; read Cap s1) = Done (Some x, s') ∧
    ('(r, s1) ← read Cap s; s2 ← write Cap data s1; Done (r, s2))
      = Done (Some x, s').
Proof.
  intros Hwf He Hf.
  destruct s as [h t a f]. unfold empty, full in *. simpl in *.
  destruct Hwf as (Hh & Ht & Ha & _). simpl in *. subst f.
  rewrite andb_true_r in He. apply Z.eqb_neq in He.
  destruct (StdArrayFacts.lookup_in_bounds a t) as [x Hx]; [lia|].
  assert (Hne : idx_increment Cap h ≠ idx_increment Cap t).
  { intros Heq. apply He.
    apply (RingLaws.next_inj Cap Cap_range); assumption. }
  exists x, (Build (idx_increment Cap h) (idx_increment Cap t)
               (<[Z.to_nat h:=data]> a) false).
  unfold write, read, store, move_tail_if_full, move_head, move_tail,
    update_full, empty, full. simpl.
  rewrite !StdArrayFacts.set_in_bounds by lia. simpl.
  rewrite (StdArrayFacts.get_lookup a t x) by (lia || exact Hx).
  rewrite (StdArrayFacts.get_lookup (<[Z.to_nat h:=data]> a) t x).
  2: lia.
  2:{ rewrite list_lookup_insert_ne by lia. exact Hx. }
  rewrite (proj2 (Z.eqb_neq _ _) He).
  destruct (idx_increment Cap h =? t) eqn:Hht; simpl.
  - (* the write filled the buffer *)
    rewrite StdArrayFacts.set_in_bounds by lia. simpl.
    rewrite (proj2 (Z.eqb_neq _ _) Hne). auto.
  - rewrite StdArrayFacts.set_in_bounds by lia. simpl.
    rewrite (proj2 (Z.eqb_neq _ _) Hne). auto.
Qed.

End Laws.
End FullFlagLaws.

(** ** The properties *)

(** X1: after any sequence of calls on a new buffer of either strategy,
    no call had undefined behaviour, the storage has kept its length and
    both cursors are valid indices of it; in the full-flag buffer a set
    flag implies [head = tail]. *)
Theorem cursors_stay_in_bounds (T : Type) (dflt : T) (Cap : Z)
    (os : list (op T)) :
  1 ≤ Cap < SizeT.SIZE_MAX →
  (∃ rs s,
     run (GuardElem.ring_buffer Cap) os (GuardElem.init Cap dflt) = Done (rs, s) ∧
     Z.of_nat (length (GuardElem.buf s)) = Cap + 1 ∧
     StdArray.in_bounds (GuardElem.buf s) (GuardElem.head s) = true ∧
     StdArray.in_bounds (GuardElem.buf s) (GuardElem.tail s) = true) ∧
  (∃ rs s,
     run (FullFlag.ring_buffer Cap) os (FullFlag.init Cap dflt) = Done (rs, s) ∧
     Z.of_nat (length (FullFlag.buf s)) = Cap ∧
     StdArray.in_bounds (FullFlag.buf s) (FullFlag.head s) = true ∧
     StdArray.in_bounds (FullFlag.buf s) (FullFlag.tail s) = true ∧
     (FullFlag._full s = true → FullFlag.head s = FullFlag.tail s)).
Proof.
  intros HCap.
  assert (HCap' : 1 ≤ Cap ≤ SizeT.SIZE_MAX) by lia.
  split.
  - destruct (RefinementFacts.run_refines _ Cap _ _
                (GuardElemFacts.guard_refines Cap HCap) os _
                (GuardElemFacts.guard_init_wf Cap HCap dflt))
      as (rs & s & Hrun & Hwf & _).
    exists rs, s. split; [exact Hrun|].
    apply (GuardElemFacts.wf_unfold Cap HCap) in Hwf.
    destruct Hwf as (Hh & Ht & Ha).
    split; [exact Ha|].
    split; apply StdArrayFacts.in_bounds_true; lia.
  - destruct (RefinementFacts.run_refines _ Cap _ _
                (FullFlagFacts.flag_refines Cap HCap') os _
                (FullFlagFacts.flag_init_wf Cap HCap' dflt))
      as (rs & s & Hrun & Hwf & _).
    exists rs, s. split; [exact Hrun|].
    destruct Hwf as (Hh & Ht & Ha & Hf).
    split; [exact Ha|].
    repeat split; try (apply StdArrayFacts.in_bounds_true; lia). exact Hf.
Qed.

(** X1 at capacity 2, after writes that wrap both cursors. *)
Lemma cursors_stay_in_bounds_witness :
  1 ≤ 2 < SizeT.SIZE_MAX ∧
  ∃ rs s,
    run (GuardElem.ring_buffer 2) [Write 1; Write 2; Write 3; Write 4; Read]
      (GuardElem.init 2 0) = Done (rs, s) ∧
    Z.of_nat (length (GuardElem.buf s)) = 2 + 1 ∧
    StdArray.in_bounds (GuardElem.buf s) (GuardElem.head s) = true ∧
    StdArray.in_bounds (GuardElem.buf s) (GuardElem.tail s) = true.
Proof.
  assert (H : 1 ≤ 2 < SizeT.SIZE_MAX)
    by (vm_compute; split; [discriminate | reflexivity]).
  split; [exact H|].
  exact (proj1 (cursors_stay_in_bounds Z 0 2
                  [Write 1; Write 2; Write 3; Write 4; Read] H)).
Defined.

(** X2: in every reachable state of either strategy the observers agree:
    [full()] holds exactly when [size() == capacity()], [empty()] exactly
    when [size() == 0], and never both. *)
Theorem observers_consistent (T : Type) (dflt : T) (Cap : Z) :
  1 ≤ Cap < SizeT.SIZE_MAX →
  (∀ s,
     reachable_from (GuardElem.ring_buffer Cap) (GuardElem.init Cap dflt) s →
     GuardElem.full Cap s = (GuardElem.size Cap s =? GuardElem.capacity Cap s) ∧
     GuardElem.empty s = (GuardElem.size Cap s =? 0) ∧
     0 ≤ GuardElem.size Cap s ≤ GuardElem.capacity Cap s ∧
     ¬ (GuardElem.full Cap s = true ∧ GuardElem.empty s = true)) ∧
  (∀ s,
     reachable_from (FullFlag.ring_buffer Cap) (FullFlag.init Cap dflt) s →
     FullFlag.full s = (FullFlag.size Cap s =? FullFlag.capacity Cap s) ∧
     FullFlag.empty s = (FullFlag.size Cap s =? 0) ∧
     0 ≤ FullFlag.size Cap s ≤ FullFlag.capacity Cap s ∧
     ¬ (FullFlag.full s = true ∧ FullFlag.empty s = true)).
Proof.
  intros HCap.
  assert (Hpos : 1 ≤ Cap) by lia.
  assert (HCap' : 1 ≤ Cap ≤ SizeT.SIZE_MAX) by lia.
  split; intros s Hreach.
  - apply (RefinementLaws.observers_agree _ Cap _ _ Hpos
             (GuardElemFacts.guard_refines Cap HCap) s).
    exact (GuardElemFacts.guard_reachable_wf Cap HCap dflt s Hreach).
  - apply (RefinementLaws.observers_agree _ Cap _ _ Hpos
             (FullFlagFacts.flag_refines Cap HCap') s).
    exact (FullFlagFacts.flag_reachable_wf Cap HCap' dflt s Hreach).
Qed.

(** X2 at capacity 2 on a full full-flag buffer. *)
Lemma observers_consistent_witness :
  1 ≤ 2 < SizeT.SIZE_MAX ∧
  FullFlag.full (FullFlag.Build 0 0 [1; 2] true)
    = (FullFlag.size 2 (FullFlag.Build 0 0 [1; 2] true) =? 2).
Proof.
  assert (H : 1 ≤ 2 < SizeT.SIZE_MAX)
    by (vm_compute; split; [discriminate | reflexivity]).
  split; [exact H|].
  apply (proj2 (observers_consistent Z 0 2 H) (FullFlag.Build 0 0 [1; 2] true)).
  exists [Write 1; Write 2], [RVoid; RVoid]. reflexivity.
Defined.

(** X3: on every reachable state of either strategy [write(v)] is defined
    and makes [size()] the smaller of [size() + 1] and the capacity; the
    live elements are the old ones, without the oldest if the buffer was
    full, followed by [v]. *)
Theorem write_appends (T : Type) (dflt : T) (Cap : Z) :
  1 ≤ Cap < SizeT.SIZE_MAX →
  (∀ s v,
     reachable_from (GuardElem.ring_buffer Cap) (GuardElem.init Cap dflt) s →
     ∃ s', GuardElem.write Cap v s = Done s' ∧
       GuardElem.size Cap s' = Z.min (GuardElem.size Cap s + 1) Cap ∧
       GuardElem.contents Cap s'
         = (if GuardElem.full Cap s then drop 1 (GuardElem.contents Cap s)
            else GuardElem.contents Cap s) ++ [v]) ∧
  (∀ s v,
     reachable_from (FullFlag.ring_buffer Cap) (FullFlag.init Cap dflt) s →
     ∃ s', FullFlag.write Cap v s = Done s' ∧
       FullFlag.size Cap s' = Z.min (FullFlag.size Cap s + 1) Cap ∧
       FullFlag.contents Cap s'
         = (if FullFlag.full s then drop 1 (FullFlag.contents Cap s)
            else FullFlag.contents Cap s) ++ [v]).
Proof.
  intros HCap.
  assert (Hpos : 1 ≤ Cap) by lia.
  assert (HCap' : 1 ≤ Cap ≤ SizeT.SIZE_MAX) by lia.
  split; intros s v Hreach.
  - destruct (RefinementLaws.write_effect _ Cap _ _ Hpos
                (GuardElemFacts.guard_refines Cap HCap) s v
                (GuardElemFacts.guard_reachable_wf Cap HCap dflt s Hreach))
      as (s' & Hw & _ & Hs & Hc).
    exists s'. auto.
  - destruct (RefinementLaws.write_effect _ Cap _ _ Hpos
                (FullFlagFacts.flag_refines Cap HCap') s v
                (FullFlagFacts.flag_reachable_wf Cap HCap' dflt s Hreach))
      as (s' & Hw & _ & Hs & Hc).
    exists s'. auto.
Qed.

(** X3 on a full guard-element buffer of capacity 2. *)
Lemma write_appends_witness :
  1 ≤ 2 < SizeT.SIZE_MAX ∧
  ∃ s', GuardElem.write 2 3 (GuardElem.Build 2 0 [1; 2; 0]) = Done s' ∧
        GuardElem.size 2 s' = Z.min (GuardElem.size 2 (GuardElem.Build 2 0 [1; 2; 0]) + 1) 2.
Proof.
  assert (H : 1 ≤ 2 < SizeT.SIZE_MAX)
    by (vm_compute; split; [discriminate | reflexivity]).
  split; [exact H|].
  destruct (proj1 (write_appends Z 0 2 H) (GuardElem.Build 2 0 [1; 2; 0]) 3)
    as (s' & Hw & Hs & _).
  - exists [Write 1; Write 2], [RVoid; RVoid]. reflexivity.
  - exists s'. split; [exact Hw | exact Hs].
Defined.

(** X4: on every reachable state of either strategy, [read()] on an
    empty buffer returns nothing and leaves the object as it is; on a
    buffer that is not empty it returns the oldest live element, makes
    [size()] one less and [full()] false, and changes neither [head] nor
    the storage. *)
Theorem read_takes_oldest (T : Type) (dflt : T) (Cap : Z) :
  1 ≤ Cap < SizeT.SIZE_MAX →
  (∀ s,
     reachable_from (GuardElem.ring_buffer Cap) (GuardElem.init Cap dflt) s →
     (GuardElem.empty s = true → GuardElem.read Cap s = Done (None, s)) ∧
     (GuardElem.empty s = false →
      ∃ x s', GuardElem.read Cap s = Done (Some x, s') ∧
        GuardElem.size Cap s' = GuardElem.size Cap s - 1 ∧
        GuardElem.full Cap s' = false ∧
        GuardElem.contents Cap s = x :: GuardElem.contents Cap s' ∧
        GuardElem.head s' = GuardElem.head s ∧
        GuardElem.buf s' = GuardElem.buf s)) ∧
  (∀ s,
     reachable_from (FullFlag.ring_buffer Cap) (FullFlag.init Cap dflt) s →
     (FullFlag.empty s = true → FullFlag.read Cap s = Done (None, s)) ∧
     (FullFlag.empty s = false →
      ∃ x s', FullFlag.read Cap s = Done (Some x, s') ∧
        FullFlag.size Cap s' = FullFlag.size Cap s - 1 ∧
        FullFlag.full s' = false ∧
        FullFlag.contents Cap s = x :: FullFlag.contents Cap s' ∧
        FullFlag.head s' = FullFlag.head s ∧
        FullFlag.buf s' = FullFlag.buf s)).
Proof.
  intros HCap.
  assert (Hpos : 1 ≤ Cap) by lia.
  assert (HCap' : 1 ≤ Cap ≤ SizeT.SIZE_MAX) by lia.
  split; intros s Hreach.
  - split; intros He.
    + unfold GuardElem.read. rewrite He. reflexivity.
    + destruct (RefinementLaws.read_effect _ Cap _ _
                  (GuardElemFacts.guard_refines Cap HCap) s
                  (GuardElemFacts.guard_reachable_wf Cap HCap dflt s Hreach) He)
        as (x & s' & Hr & _ & Hs & Hf & Hc).
      exists x, s'. repeat split; try assumption.
      all: simpl in Hr; unfold GuardElem.read in Hr; rewrite He in Hr;
        destruct (StdArray.get (GuardElem.buf s) (GuardElem.tail s));
        simpl in Hr; [|discriminate]; injection Hr as _ <-; reflexivity.
  - split; intros He.
    + unfold FullFlag.read. rewrite He. reflexivity.
    + destruct (RefinementLaws.read_effect _ Cap _ _
                  (FullFlagFacts.flag_refines Cap HCap') s
                  (FullFlagFacts.flag_reachable_wf Cap HCap' dflt s Hreach) He)
        as (x & s' & Hr & _ & Hs & Hf & Hc).
      exists x, s'. repeat split; try assumption.
      all: simpl in Hr; unfold FullFlag.read in Hr; rewrite He in Hr;
        destruct (StdArray.get (FullFlag.buf s) (FullFlag.tail s));
        simpl in Hr; [|discriminate]; injection Hr as _ <-; reflexivity.
Qed.

(** X4 at capacity 2: a read on a new buffer. *)
Lemma read_takes_oldest_witness :
  1 ≤ 2 < SizeT.SIZE_MAX ∧
  FullFlag.read 2 (FullFlag.init 2 0) = Done (None, FullFlag.init 2 0).
Proof.
  assert (H : 1 ≤ 2 < SizeT.SIZE_MAX)
    by (vm_compute; split; [discriminate | reflexivity]).
  split; [exact H|].
  apply (proj2 (read_takes_oldest Z 0 2 H) (FullFlag.init 2 0)).
  - exists [], []. reflexivity.
  - reflexivity.
Defined.

(** X5: after any sequence of calls on a new buffer of either strategy,
    [size()] reads return exactly the elements written, not yet read and
    not discarded, oldest first; one more [read()] returns nothing and
    [empty()] holds. *)
Theorem drain_returns_survivors (T : Type) (dflt : T) (Cap : Z)
    (os : list (op T)) :
  1 ≤ Cap < SizeT.SIZE_MAX →
  (∃ rs s,
     run (GuardElem.ring_buffer Cap) os (GuardElem.init Cap dflt) = Done (rs, s) ∧
     results (GuardElem.ring_buffer Cap)
       (replicate (Z.to_nat (GuardElem.size Cap s)) Read ++ [Read; Empty]) s
     = Done (map (λ v, RRead (Some v)) (Contract.survivors Cap os)
             ++ [RRead None; RBool true])) ∧
  (∃ rs s,
     run (FullFlag.ring_buffer Cap) os (FullFlag.init Cap dflt) = Done (rs, s) ∧
     results (FullFlag.ring_buffer Cap)
       (replicate (Z.to_nat (FullFlag.size Cap s)) Read ++ [Read; Empty]) s
     = Done (map (λ v, RRead (Some v)) (Contract.survivors Cap os)
             ++ [RRead None; RBool true])).
Proof.
  intros HCap.
  assert (Hpos : 1 ≤ Cap) by lia.
  assert (HCap' : 1 ≤ Cap ≤ SizeT.SIZE_MAX) by lia.
  split.
  - pose proof (GuardElemFacts.guard_refines (T:=T) Cap HCap) as R.
    pose proof (GuardElemFacts.guard_init_wf Cap HCap dflt) as Hwf0.
    destruct (RefinementFacts.run_refines _ Cap _ _ R os _ Hwf0)
      as (rs & s & Hrun & Hwf & _).
    destruct (RefinementFacts.run_contents _ Cap _ _ R os _ rs s Hwf0
                (GuardElemFacts.guard_init_contents Cap HCap dflt) Hrun)
      as (_ & Hc).
    exists rs, s. split; [exact Hrun|].
    rewrite <- Hc. exact (RefinementLaws.drain _ Cap _ _ R s Hwf).
  - pose proof (FullFlagFacts.flag_refines (T:=T) Cap HCap') as R.
    pose proof (FullFlagFacts.flag_init_wf Cap HCap' dflt) as Hwf0.
    destruct (RefinementFacts.run_refines _ Cap _ _ R os _ Hwf0)
      as (rs & s & Hrun & Hwf & _).
    destruct (RefinementFacts.run_contents _ Cap _ _ R os _ rs s Hwf0
                (FullFlagFacts.flag_init_contents Cap HCap' dflt) Hrun)
      as (_ & Hc).
    exists rs, s. split; [exact Hrun|].
    rewrite <- Hc. exact (RefinementLaws.drain _ Cap _ _ R s Hwf).
Qed.

(** X5 at capacity 2, after writes, a read, a clear and more writes. *)
Lemma drain_returns_survivors_witness :
  1 ≤ 2 < SizeT.SIZE_MAX ∧
  ∃ rs s,
    run (FullFlag.ring_buffer 2)
      [Write 1; Write 2; Read; Clear; Write 3; Write 4; Write 5]
      (FullFlag.init 2 0) = Done (rs, s) ∧
    results (FullFlag.ring_buffer 2)
      (replicate (Z.to_nat (FullFlag.size 2 s)) Read ++ [Read; Empty]) s
    = Done (map (λ v, RRead (Some v))
              (Contract.survivors 2
                 [Write 1; Write 2; Read; Clear; Write 3; Write 4; Write 5])
            ++ [RRead None; RBool true]).
Proof.
  assert (H : 1 ≤ 2 < SizeT.SIZE_MAX)
    by (vm_compute; split; [discriminate | reflexivity]).
  split; [exact H|].
  exact (proj2 (drain_returns_survivors Z 0 2
                  [Write 1; Write 2; Read; Clear; Write 3; Write 4; Write 5] H)).
Defined.

(** X6: a buffer of either strategy that was cleared, or that is empty,
    cannot be told from a new one: from any reachable state, every
    sequence of calls after [clear()], and every sequence of calls on a
    state in which [empty()] holds, returns what it returns on a new
    buffer. *)
Theorem cleared_is_like_new (T : Type) (dflt : T) (Cap : Z) (os : list (op T)) :
  1 ≤ Cap < SizeT.SIZE_MAX →
  (∀ s,
     reachable_from (GuardElem.ring_buffer Cap) (GuardElem.init Cap dflt) s →
     results (GuardElem.ring_buffer Cap) os (GuardElem.clear s)
       = results (GuardElem.ring_buffer Cap) os (GuardElem.init Cap dflt) ∧
     (GuardElem.empty s = true →
      results (GuardElem.ring_buffer Cap) os s
        = results (GuardElem.ring_buffer Cap) os (GuardElem.init Cap dflt))) ∧
  (∀ s,
     reachable_from (FullFlag.ring_buffer Cap) (FullFlag.init Cap dflt) s →
     results (FullFlag.ring_buffer Cap) os (FullFlag.clear s)
       = results (FullFlag.ring_buffer Cap) os (FullFlag.init Cap dflt) ∧
     (FullFlag.empty s = true →
      results (FullFlag.ring_buffer Cap) os s
        = results (FullFlag.ring_buffer Cap) os (FullFlag.init Cap dflt))).
Proof.
  intros HCap.
  assert (Hpos : 1 ≤ Cap) by lia.
  assert (HCap' : 1 ≤ Cap ≤ SizeT.SIZE_MAX) by lia.
  split; intros s Hreach.
  - pose proof (GuardElemFacts.guard_refines (T:=T) Cap HCap) as R.
    pose proof (GuardElemFacts.guard_init_wf Cap HCap dflt) as Hwf0.
    pose proof (GuardElemFacts.guard_init_contents Cap HCap dflt) as Hc0.
    pose proof (GuardElemFacts.guard_reachable_wf Cap HCap dflt s Hreach) as Hwf.
    destruct (ref_clear _ _ _ _ R s Hwf) as (Hwfc & Hcc).
    split.
    + apply (RefinementLaws.same_contents _ Cap _ _ R);
        [exact Hwfc | exact Hwf0 |].
      simpl in Hcc. rewrite Hcc, Hc0. reflexivity.
    + intros He.
      apply (RefinementLaws.same_contents _ Cap _ _ R);
        [exact Hwf | exact Hwf0 |].
      rewrite (RefinementFacts.empty_contents _ Cap _ _ R s Hwf He), Hc0.
      reflexivity.
  - pose proof (FullFlagFacts.flag_refines (T:=T) Cap HCap') as R.
    pose proof (FullFlagFacts.flag_init_wf Cap HCap' dflt) as Hwf0.
    pose proof (FullFlagFacts.flag_init_contents Cap HCap' dflt) as Hc0.
    pose proof (FullFlagFacts.flag_reachable_wf Cap HCap' dflt s Hreach) as Hwf.
    destruct (ref_clear _ _ _ _ R s Hwf) as (Hwfc & Hcc).
    split.
    + apply (RefinementLaws.same_contents _ Cap _ _ R);
        [exact Hwfc | exact Hwf0 |].
      simpl in Hcc. rewrite Hcc, Hc0. reflexivity.
    + intros He.
      apply (RefinementLaws.same_contents _ Cap _ _ R);
        [exact Hwf | exact Hwf0 |].
      rewrite (RefinementFacts.empty_contents _ Cap _ _ R s Hwf He), Hc0.
      reflexivity.
Qed.

(** X6 at capacity 2: a full buffer, cleared, then written and read. *)
Lemma cleared_is_like_new_witness :
  1 ≤ 2 < SizeT.SIZE_MAX ∧
  results (GuardElem.ring_buffer 2) [Write 7; Size; Read; Read]
    (GuardElem.clear (GuardElem.Build 2 0 [1; 2; 0]))
  = results (GuardElem.ring_buffer 2) [Write 7; Size; Read; Read]
      (GuardElem.init 2 0).
Proof.
  assert (H : 1 ≤ 2 < SizeT.SIZE_MAX)
    by (vm_compute; split; [discriminate | reflexivity]).
  split; [exact H|].
  apply (proj1 (cleared_is_like_new Z 0 2 [Write 7; Size; Read; Read] H)
           (GuardElem.Build 2 0 [1; 2; 0])).
  exists [Write 1; Write 2], [RVoid; RVoid]. reflexivity.
Defined.

(** X7: on the valid indices of either strategy, [idx_increment] never
    overflows [size_t] and is the successor on the ring of the storage
    slots: it returns a valid index, [(idx + 1) mod P] for [P] slots, it
    is injective, and [k] applications advance by [k] modulo [P], so [P]
    of them come back to the start. *)
Theorem idx_increment_is_ring_successor (Cap i j : Z) (k : nat) :
  1 ≤ Cap < SizeT.SIZE_MAX →
  (0 ≤ i ≤ Cap → 0 ≤ j ≤ Cap →
   0 ≤ GuardElem.idx_increment Cap i ≤ Cap ∧
   GuardElem.idx_increment Cap i = (i + 1) mod (Cap + 1) ∧
   (GuardElem.idx_increment Cap i = GuardElem.idx_increment Cap j → i = j) ∧
   Nat.iter k (GuardElem.idx_increment Cap) i = (i + Z.of_nat k) mod (Cap + 1) ∧
   Nat.iter (Z.to_nat (Cap + 1)) (GuardElem.idx_increment Cap) i = i) ∧
  (0 ≤ i < Cap → 0 ≤ j < Cap →
   0 ≤ FullFlag.idx_increment Cap i < Cap ∧
   FullFlag.idx_increment Cap i = (i + 1) mod Cap ∧
   (FullFlag.idx_increment Cap i = FullFlag.idx_increment Cap j → i = j) ∧
   Nat.iter k (FullFlag.idx_increment Cap) i = (i + Z.of_nat k) mod Cap ∧
   Nat.iter (Z.to_nat Cap) (FullFlag.idx_increment Cap) i = i).
Proof.
  intros HCap.
  assert (HP : 1 ≤ Cap + 1 ≤ SizeT.SIZE_MAX) by lia.
  assert (HCap' : 1 ≤ Cap ≤ SizeT.SIZE_MAX) by lia.
  split; intros Hi Hj.
  - assert (Hext : ∀ n x, Nat.iter n (GuardElem.idx_increment Cap) x
                          = Nat.iter n (Ring.next (Cap + 1)) x).
    { intros n x. induction n as [|n IH]; [reflexivity|].
      rewrite !Nat.iter_succ, IH.
      apply (GuardElemFacts.guard_idx_increment_next Cap HCap). }
    rewrite !Hext, !(GuardElemFacts.guard_idx_increment_next Cap HCap).
    pose proof (RingFacts.next_range (Cap + 1) HP i ltac:(lia)).
    repeat split; try lia.
    + apply (RingFacts.next_mod (Cap + 1) HP). lia.
    + apply (RingLaws.next_inj (Cap + 1) HP); lia.
    + apply (RingLaws.iter_next (Cap + 1) HP). lia.
    + apply (RingLaws.next_period (Cap + 1) HP). lia.
  - change (FullFlag.idx_increment Cap) with (Ring.next Cap).
    pose proof (RingFacts.next_range Cap HCap' i ltac:(lia)).
    repeat split; try lia.
    + apply (RingFacts.next_mod Cap HCap'). lia.
    + apply (RingLaws.next_inj Cap HCap'); lia.
    + apply (RingLaws.iter_next Cap HCap'). lia.
    + apply (RingLaws.next_period Cap HCap'). lia.
Qed.

(** X7 at capacity 3: from the last slot of the guard-element storage. *)
Lemma idx_increment_is_ring_successor_witness :
  1 ≤ 3 < SizeT.SIZE_MAX ∧
  GuardElem.idx_increment 3 3 = (3 + 1) mod (3 + 1) ∧
  Nat.iter 6 (GuardElem.idx_increment 3) 3 = (3 + Z.of_nat 6) mod (3 + 1).
Proof.
  assert (H : 1 ≤ 3 < SizeT.SIZE_MAX)
    by (vm_compute; split; [discriminate | reflexivity]).
  split; [exact H|].
  destruct (proj1 (idx_increment_is_ring_successor 3 3 0 6 H)
                  ltac:(lia) ltac:(lia)) as (_ & Hm & _ & Hk & _).
  split; [exact Hm | exact Hk].
Defined.

(** X8: in every reachable state, the assignment [buf[head] = data] of
    [write] is in bounds and moves no cursor.  In the guard-element
    buffer it never touches a live element, full or not: it goes to the
    guard slot.  In the full-flag buffer it touches no live element
    unless the buffer is full, and then it replaces the oldest one in
    place. *)
Theorem store_and_live_elements (T : Type) (dflt : T) (Cap : Z) :
  1 ≤ Cap < SizeT.SIZE_MAX →
  (∀ s data,
     reachable_from (GuardElem.ring_buffer Cap) (GuardElem.init Cap dflt) s →
     ∃ s1, GuardElem.store data s = Done s1 ∧
       GuardElem.head s1 = GuardElem.head s ∧
       GuardElem.tail s1 = GuardElem.tail s ∧
       GuardElem.contents Cap s1 = GuardElem.contents Cap s) ∧
  (∀ s data,
     reachable_from (FullFlag.ring_buffer Cap) (FullFlag.init Cap dflt) s →
     ∃ s1, FullFlag.store data s = Done s1 ∧
       FullFlag.head s1 = FullFlag.head s ∧
       FullFlag.tail s1 = FullFlag.tail s ∧
       FullFlag.contents Cap s1
         = if FullFlag.full s then data :: drop 1 (FullFlag.contents Cap s)
           else FullFlag.contents Cap s).
Proof.
  intros HCap.
  assert (HCap' : 1 ≤ Cap ≤ SizeT.SIZE_MAX) by lia.
  split; intros s data Hreach.
  - apply (GuardElemLaws.guard_store_spares Cap HCap).
    exact (GuardElemFacts.guard_reachable_wf Cap HCap dflt s Hreach).
  - apply (FullFlagLaws.flag_store_overwrites Cap HCap').
    exact (FullFlagFacts.flag_reachable_wf Cap HCap' dflt s Hreach).
Qed.

(** X8 at capacity 2, on full buffers of both strategies. *)
Lemma store_and_live_elements_witness :
  1 ≤ 2 < SizeT.SIZE_MAX ∧
  (∃ s1, GuardElem.store 9 (GuardElem.Build 2 0 [1; 2; 0]) = Done s1 ∧
         GuardElem.contents 2 s1
           = GuardElem.contents 2 (GuardElem.Build 2 0 [1; 2; 0])) ∧
  (∃ s1, FullFlag.store 9 (FullFlag.Build 0 0 [1; 2] true) = Done s1 ∧
         FullFlag.contents 2 s1
           = 9 :: drop 1 (FullFlag.contents 2 (FullFlag.Build 0 0 [1; 2] true))).
Proof.
  assert (H : 1 ≤ 2 < SizeT.SIZE_MAX)
    by (vm_compute; split; [discriminate | reflexivity]).
  split; [exact H|]. split.
  - destruct (proj1 (store_and_live_elements Z 0 2 H)
                    (GuardElem.Build 2 0 [1; 2; 0]) 9) as (s1 & Hs & _ & _ & Hc).
    + exists [Write 1; Write 2], [RVoid; RVoid]. reflexivity.
    + exists s1. split; [exact Hs | exact Hc].
  - destruct (proj2 (store_and_live_elements Z 0 2 H)
                    (FullFlag.Build 0 0 [1; 2] true) 9) as (s1 & Hs & _ & _ & Hc).
    + exists [Write 1; Write 2], [RVoid; RVoid]. reflexivity.
    + exists s1. split; [exact Hs | exact Hc].
Defined.

(** X9: for every capacity [Cap >= 1] with [Cap + 10 <= INT_MAX], the
    single-threaded part of [ring_buf_test] (four rounds of
    [write_helper] and [read_helper], then [write(1)], [clear()] and the
    last assertion) run on a new buffer of either strategy passes every
    assertion, without undefined behaviour, and ends with an empty
    buffer; each loop of [read_helper] ends within [Cap] iterations. *)
Theorem ring_buf_test_passes (Cap : Z) (fuel : nat) :
  1 ≤ Cap →
  Cap + 10 ≤ Harness.INT_MAX →
  (Z.to_nat Cap ≤ fuel)%nat →
  (∃ b, Harness.ring_buf_test_sequential (GuardElem.ring_buffer Cap) fuel
          (GuardElem.init Cap 0) = Harness.Pass b ∧
        GuardElem.empty b = true) ∧
  (∃ b, Harness.ring_buf_test_sequential (FullFlag.ring_buffer Cap) fuel
          (FullFlag.init Cap 0) = Harness.Pass b ∧
        FullFlag.empty b = true).
Proof.
  intros Hpos Hint Hfuel.
  pose proof HarnessFacts.int_max_lt_size_max as Hmax.
  assert (HCap : 1 ≤ Cap < SizeT.SIZE_MAX) by lia.
  assert (HCap' : 1 ≤ Cap ≤ SizeT.SIZE_MAX) by lia.
  split.
  - destruct (HarnessFacts.ring_buf_test_sequential_pass _ Cap _ _ Hpos Hint
                (GuardElemFacts.guard_refines Cap HCap) fuel (GuardElem.init Cap 0)
                (GuardElemFacts.guard_init_wf Cap HCap 0)
                (GuardElemFacts.guard_init_contents Cap HCap 0) Hfuel)
      as (b & Hrun & _ & He).
    exists b. split; [exact Hrun | exact He].
  - destruct (HarnessFacts.ring_buf_test_sequential_pass _ Cap _ _ Hpos Hint
                (FullFlagFacts.flag_refines Cap HCap') fuel (FullFlag.init Cap 0)
                (FullFlagFacts.flag_init_wf Cap HCap' 0)
                (FullFlagFacts.flag_init_contents Cap HCap' 0) Hfuel)
      as (b & Hrun & _ & He).
    exists b. split; [exact Hrun | exact He].
Qed.

(** X9 at the capacity of [main], 666. *)
Lemma ring_buf_test_passes_witness :
  1 ≤ 666 ∧ 666 + 10 ≤ Harness.INT_MAX ∧ (Z.to_nat 666 ≤ 666)%nat ∧
  (∃ b, Harness.ring_buf_test_sequential (GuardElem.ring_buffer 666) 666
          (GuardElem.init 666 0) = Harness.Pass b ∧
        GuardElem.empty b = true) ∧
  (∃ b, Harness.ring_buf_test_sequential (FullFlag.ring_buffer 666) 666
          (FullFlag.init 666 0) = Harness.Pass b ∧
        FullFlag.empty b = true).
Proof.
  assert (H1 : 1 ≤ 666) by lia.
  assert (H2 : 666 + 10 ≤ Harness.INT_MAX) by (vm_compute; discriminate).
  assert (H3 : (Z.to_nat 666 ≤ 666)%nat) by lia.
  split; [exact H1|]. split; [exact H2|]. split; [exact H3|].
  exact (ring_buf_test_passes 666 666 H1 H2 H3).
Defined.

(** X10: in every reachable state, [size()] is the distance from [tail]
    to [head] on the ring.  Guard-element buffer: [size()] is
    [(head - tail) mod (Cap + 1)].  Full-flag buffer: [head = tail] holds
    exactly when the buffer is empty or full, and while the flag is not
    set [size()] is [(head - tail) mod Cap]. *)
Theorem size_is_cursor_distance (T : Type) (dflt : T) (Cap : Z) :
  1 ≤ Cap < SizeT.SIZE_MAX →
  (∀ s,
     reachable_from (GuardElem.ring_buffer Cap) (GuardElem.init Cap dflt) s →
     GuardElem.size Cap s
       = (GuardElem.head s - GuardElem.tail s) mod (Cap + 1)) ∧
  (∀ s,
     reachable_from (FullFlag.ring_buffer Cap) (FullFlag.init Cap dflt) s →
     (FullFlag.head s = FullFlag.tail s ↔
        FullFlag.empty s = true ∨ FullFlag.full s = true) ∧
     (FullFlag.full s = false →
      FullFlag.size Cap s
        = (FullFlag.head s - FullFlag.tail s) mod Cap)).
Proof.
  intros HCap.
  assert (HCap' : 1 ≤ Cap ≤ SizeT.SIZE_MAX) by lia.
  split; intros s Hreach.
  - pose proof (GuardElemFacts.guard_reachable_wf Cap HCap dflt s Hreach) as Hwf.
    rewrite (GuardElemFacts.guard_size_eq Cap HCap s Hwf).
    apply (GuardElemFacts.wf_unfold Cap HCap) in Hwf.
    destruct Hwf as (Hh & Ht & _).
    rewrite (RingLaws.cursor_distance (Cap + 1)) by lia.
    destruct (GuardElem.tail s <=? GuardElem.head s); lia.
  - pose proof (FullFlagFacts.flag_reachable_wf Cap HCap' dflt s Hreach) as Hwf.
    pose proof (FullFlagFacts.flag_size_eq Cap HCap' s Hwf) as Hse.
    destruct Hwf as (Hh & Ht & _ & Hf).
    unfold FullFlag.empty, FullFlag.full in *. split.
    + split.
      * intros Heq. destruct (FullFlag._full s); [right; reflexivity|].
        left. rewrite Heq, Z.eqb_refl. reflexivity.
      * intros [He|Hfull]; [|apply Hf; exact Hfull].
        apply andb_true_iff in He. destruct He as [He _].
        apply Z.eqb_eq. exact He.
    + intros Hnf. rewrite Hse, Hnf.
      rewrite (RingLaws.cursor_distance Cap) by lia. reflexivity.
Qed.

(** X10 at capacity 2, with [head] wrapped behind [tail]. *)
Lemma size_is_cursor_distance_witness :
  1 ≤ 2 < SizeT.SIZE_MAX ∧
  GuardElem.size 2 (GuardElem.Build 0 2 [1; 2; 3]) = (0 - 2) mod (2 + 1).
Proof.
  assert (H : 1 ≤ 2 < SizeT.SIZE_MAX)
    by (vm_compute; split; [discriminate | reflexivity]).
  split; [exact H|].
  apply (proj1 (size_is_cursor_distance Z 0 2 H) (GuardElem.Build 0 2 [1; 2; 3])).
  exists [Write 1; Write 2; Read; Read; Write 3],
         [RVoid; RVoid; RRead (Some 1); RRead (Some 2); RVoid].
  reflexivity.
Defined.

(** X11: in every reachable state of either strategy in which the buffer
    is neither empty nor full, [write(v)] and [read()] commute: in either
    order the read returns the same element and the object ends in the
    same state. *)
Theorem write_and_read_commute (T : Type) (dflt : T) (Cap : Z) :
  1 ≤ Cap < SizeT.SIZE_MAX →
  (∀ s v,
     reachable_from (GuardElem.ring_buffer Cap) (GuardElem.init Cap dflt) s →
     GuardElem.empty s = false → GuardElem.full Cap s = false →
     ∃ x s',
       (s1 ← GuardElem.write Cap v s; GuardElem.read Cap s1)
         = Done (Some x, s') ∧
       ('(r, s1) ← GuardElem.read Cap s;
        s2 ← GuardElem.write Cap v s1; Done (r, s2))
         = Done (Some x, s')) ∧
  (∀ s v,
     reachable_from (FullFlag.ring_buffer Cap) (FullFlag.init Cap dflt) s →
     FullFlag.empty s = false → FullFlag.full s = false →
     ∃ x s',
       (s1 ← FullFlag.write Cap v s; FullFlag.read Cap s1)
         = Done (Some x, s') ∧
       ('(r, s1) ← FullFlag.read Cap s;
        s2 ← FullFlag.write Cap v s1; Done (r, s2))
         = Done (Some x, s')).
Proof.
  intros HCap.
  assert (HCap' : 1 ≤ Cap ≤ SizeT.SIZE_MAX) by lia.
  split; intros s v Hreach He Hf.
  - apply (GuardElemLaws.guard_write_read_commute Cap HCap); try assumption.
    exact (GuardElemFacts.guard_reachable_wf Cap HCap dflt s Hreach).
  - apply (FullFlagLaws.flag_write_read_commute Cap HCap'); try assumption.
    exact (FullFlagFacts.flag_reachable_wf Cap HCap' dflt s Hreach).
Qed.

(** X11 at capacity 3, on a buffer that holds one element. *)
Lemma write_and_read_commute_witness :
  1 ≤ 3 < SizeT.SIZE_MAX ∧
  ∃ x s',
    (s1 ← FullFlag.write 3 8 (FullFlag.Build 1 0 [7; 0; 0] false);
     FullFlag.read 3 s1) = Done (Some x, s') ∧
    ('(r, s1) ← FullFlag.read 3 (FullFlag.Build 1 0 [7; 0; 0] false);
     s2 ← FullFlag.write 3 8 s1; Done (r, s2)) = Done (Some x, s').
Proof.
  assert (H : 1 ≤ 3 < SizeT.SIZE_MAX)
    by (vm_compute; split; [discriminate | reflexivity]).
  split; [exact H|].
  apply (proj2 (write_and_read_commute Z 0 3 H)
           (FullFlag.Build 1 0 [7; 0; 0] false) 8).
  - exists [Write 7], [RVoid]. reflexivity.
  - reflexivity.
  - reflexivity.
Defined.

(** ** [pattern_write] *)

Module BufferWriterFacts.
Import Harness BufferWriter.

Lemma to_size_t_int x :
  INT_MIN ≤ x ≤ INT_MAX →
  to_size_t x = if 0 <=? x then x else x + SizeT.modulus.
Proof.
  unfold INT_MIN, INT_MAX, to_size_t, SizeT.wrap, SizeT.modulus.
  change (2 ^ 31) with 2147483648. change (2 ^ 64) with 18446744073709551616.
  intros Hx. destruct (Z.leb_spec 0 x).
  - apply Z.mod_small. lia.
  - transitivity ((x + 18446744073709551616 + (-1) * 18446744073709551616)
                    mod 18446744073709551616); [f_equal; lia|].
    rewrite Z_mod_plus_full. apply Z.mod_small. lia.
Qed.

(** Converting an [int] to [size_t] and back gives the [int]. *)
Lemma to_int_to_size_t x : INT_MIN ≤ x ≤ INT_MAX → to_int (to_size_t x) = x.
Proof.
  intros Hx. rewrite to_size_t_int by exact Hx.
  unfold INT_MIN, INT_MAX, to_int, SizeT.modulus in *.
  change (2 ^ 31) with 2147483648 in *. change (2 ^ 32) with 4294967296.
  change (2 ^ 64) with 18446744073709551616.
  destruct (Z.leb_spec 0 x).
  - rewrite Z.mod_small by lia. lia.
  - transitivity ((x + 2147483648 + 4294967296 * 4294967296) mod 4294967296
                  - 2147483648); [f_equal; f_equal; lia|].
    rewrite Z_mod_plus_full, Z.mod_small by lia. lia.
Qed.

Lemma to_size_t_succ x : SizeT.add (to_size_t x) 1 = to_size_t (x + 1).
Proof. unfold SizeT.add, to_size_t, SizeT.wrap. apply Zplus_mod_idemp_l. Qed.

Section Writer.
Context {B : Type} (buf : Base.RingBuffer Z B) (Cap : Z).
Context (wf : B → Prop) (contents : B → list Z).
Hypothesis Cap_pos : 1 ≤ Cap.
Hypothesis R : refinement buf Cap wf contents.

(** The loop writes the [int]s [m, m + 1, ..., m + n - 1], as long as
    they are all negative or all non-negative. *)
Lemma pattern_loop_contents n fuel m b l :
  wf b → contents b = Contract.newest Cap l →
  INT_MIN ≤ m → m + Z.of_nat n ≤ INT_MAX + 1 →
  0 ≤ m ∨ m + Z.of_nat n < 0 →
  (n ≤ fuel)%nat →
  ∃ b', pattern_loop buf fuel (to_size_t m) (to_size_t (m + Z.of_nat n)) b
          = Pass b' ∧
        wf b' ∧ contents b' = Contract.newest Cap (l ++ seqZ m (Z.of_nat n)).
Proof.
  revert fuel m b l.
  induction n as [|n IH]; intros fuel m b l Hwf Hc Hmin Hmax Hside Hfuel.
  - exists b. rewrite Z.add_0_r, app_nil_r.
    destruct fuel; simpl; rewrite Z.ltb_irrefl; auto.
  - destruct fuel as [|fuel]; [lia|].
    assert (Hlt : to_size_t m < to_size_t (m + Z.of_nat (S n))).
    { unfold INT_MIN, INT_MAX in *. change (2 ^ 31) with 2147483648 in *.
      assert (Hn : m + Z.of_nat (S n) ≤ 2147483647 ∨
                   m + Z.of_nat (S n) = 2147483648) by lia.
      destruct Hn as [Hn|Hn].
      - rewrite !to_size_t_int
          by (unfold INT_MIN, INT_MAX; change (2 ^ 31) with 2147483648; lia).
        split_tests; lia.
      - rewrite (to_size_t_int m)
          by (unfold INT_MIN, INT_MAX; change (2 ^ 31) with 2147483648; lia).
        rewrite Hn. unfold to_size_t.
        rewrite SizeTFacts.wrap_small
          by (unfold SizeT.modulus; change (2 ^ 64) with 18446744073709551616; lia).
        split_tests; lia. }
    destruct (ref_write _ _ _ _ R m b Hwf) as (b1 & Hw & Hwf1 & Hc1).
    rewrite Hc in Hc1.
    rewrite (ContractFacts.write_keep Cap Cap_pos) in Hc1
      by (apply ContractFacts.keep_length; exact Cap_pos).
    rewrite (ContractFacts.keep_snoc Cap Cap_pos) in Hc1.
    destruct (IH fuel (m + 1) b1 (l ++ [m]) Hwf1 Hc1)
      as (b' & Hloop & Hwf' & Hc'); try lia.
    exists b'. simpl pattern_loop.
    rewrite (proj2 (Z.ltb_lt _ _) Hlt).
    rewrite to_int_to_size_t
      by (unfold INT_MIN, INT_MAX in *; change (2 ^ 31) with 2147483648 in *; lia).
    rewrite Hw. simpl. rewrite to_size_t_succ.
    replace (m + Z.of_nat (S n)) with (m + 1 + Z.of_nat n) by lia.
    rewrite Hloop. split; [reflexivity|]. split; [exact Hwf'|].
    rewrite Hc', <- app_assoc. do 2 f_equal.
    rewrite (seqZ_cons m (Z.of_nat (S n))) by lia.
    simpl. do 2 f_equal; lia.
Qed.

Lemma pattern_write_effect fuel seed b :
  wf b → INT_MIN ≤ seed ≤ INT_MAX →
  (INT_MAX - 10 < seed → pattern_write buf fuel seed b = Crashed) ∧
  (-10 ≤ seed < 0 → pattern_write buf fuel seed b = Pass b) ∧
  (0 ≤ seed ≤ INT_MAX - 10 ∨ seed < -10 → (10 ≤ fuel)%nat →
   ∃ b', pattern_write buf fuel seed b = Pass b' ∧ wf b' ∧
         contents b' = Contract.newest Cap (contents b ++ seqZ seed 10)).
Proof.
  intros Hwf Hseed. unfold pattern_write, int_add.
  assert (Hmm : INT_MIN = -2147483648 ∧ INT_MAX = 2147483647)
    by (split; reflexivity).
  destruct Hmm as [Hmin Hmax]. rewrite Hmin, Hmax in *.
  repeat split.
  - intros Hbig.
    destruct (Z.leb_spec (10 + seed) 2147483647); [lia|].
    rewrite andb_false_r. reflexivity.
  - intros Hquirk.
    destruct (Z.leb_spec (-2147483648) (10 + seed)); [|lia].
    destruct (Z.leb_spec (10 + seed) 2147483647); [|lia].
    simpl.
    assert (Hge : ¬ (to_size_t seed < to_size_t (10 + seed))).
    { rewrite !to_size_t_int by (rewrite Hmin, Hmax; lia).
      unfold SizeT.modulus. change (2 ^ 64) with 18446744073709551616.
      split_tests; lia. }
    destruct fuel; simpl;
      rewrite (proj2 (Z.ltb_ge _ _)) by lia; reflexivity.
  - intros Hok Hfuel.
    destruct (Z.leb_spec (-2147483648) (10 + seed)); [|lia].
    destruct (Z.leb_spec (10 + seed) 2147483647); [|lia].
    simpl.
    destruct (pattern_loop_contents 10 fuel seed b (contents b) Hwf)
      as (b' & Hloop & Hwf' & Hc'); try (rewrite ?Hmin, ?Hmax; simpl; lia).
    { symmetry. apply (ContractFacts.keep_all Cap Cap_pos).
      apply (ref_bound _ _ _ _ R b Hwf). }
    exists b'. replace (10 + seed) with (seed + Z.of_nat 10) by lia.
    rewrite Hloop. auto.
Qed.

End Writer.
End BufferWriterFacts.

(** X12: [pattern_write(seed)] on any reachable state of either strategy.
    For [0 <= seed <= INT_MAX - 10] and for [seed < -10] it writes the
    ten values [seed, ..., seed + 9], so the buffer then holds the newest
    [Cap] of its former elements followed by these (the loop ends after
    ten iterations).  For [-10 <= seed <= -1] it writes nothing: the
    counter, converted to [size_t], is not below the bound.  For
    [seed > INT_MAX - 10] the sum [10 + seed] overflows [int]. *)
Theorem pattern_write_writes_ten (Cap seed : Z) (fuel : nat) :
  1 ≤ Cap < SizeT.SIZE_MAX →
  BufferWriter.INT_MIN ≤ seed ≤ Harness.INT_MAX →
  (∀ s,
     reachable_from (GuardElem.ring_buffer Cap) (GuardElem.init Cap 0) s →
     (Harness.INT_MAX - 10 < seed →
      BufferWriter.pattern_write (GuardElem.ring_buffer Cap) fuel seed s
        = Harness.Crashed) ∧
     (-10 ≤ seed < 0 →
      BufferWriter.pattern_write (GuardElem.ring_buffer Cap) fuel seed s
        = Harness.Pass s) ∧
     (0 ≤ seed ≤ Harness.INT_MAX - 10 ∨ seed < -10 → (10 ≤ fuel)%nat →
      ∃ s', BufferWriter.pattern_write (GuardElem.ring_buffer Cap) fuel seed s
              = Harness.Pass s' ∧
            GuardElem.contents Cap s'
              = Contract.newest Cap (GuardElem.contents Cap s ++ seqZ seed 10))) ∧
  (∀ s,
     reachable_from (FullFlag.ring_buffer Cap) (FullFlag.init Cap 0) s →
     (Harness.INT_MAX - 10 < seed →
      BufferWriter.pattern_write (FullFlag.ring_buffer Cap) fuel seed s
        = Harness.Crashed) ∧
     (-10 ≤ seed < 0 →
      BufferWriter.pattern_write (FullFlag.ring_buffer Cap) fuel seed s
        = Harness.Pass s) ∧
     (0 ≤ seed ≤ Harness.INT_MAX - 10 ∨ seed < -10 → (10 ≤ fuel)%nat →
      ∃ s', BufferWriter.pattern_write (FullFlag.ring_buffer Cap) fuel seed s
              = Harness.Pass s' ∧
            FullFlag.contents Cap s'
              = Contract.newest Cap (FullFlag.contents Cap s ++ seqZ seed 10))).
Proof.
  intros HCap Hseed.
  assert (Hpos : 1 ≤ Cap) by lia.
  assert (HCap' : 1 ≤ Cap ≤ SizeT.SIZE_MAX) by lia.
  split; intros s Hreach.
  - destruct (BufferWriterFacts.pattern_write_effect _ Cap _ _ Hpos
                (GuardElemFacts.guard_refines Cap HCap) fuel seed s
                (GuardElemFacts.guard_reachable_wf Cap HCap 0 s Hreach) Hseed)
      as (H1 & H2 & H3).
    split; [exact H1|]. split; [exact H2|].
    intros Hok Hfuel. destruct (H3 Hok Hfuel) as (s' & Hp & _ & Hc).
    exists s'. auto.
  - destruct (BufferWriterFacts.pattern_write_effect _ Cap _ _ Hpos
                (FullFlagFacts.flag_refines Cap HCap') fuel seed s
                (FullFlagFacts.flag_reachable_wf Cap HCap' 0 s Hreach) Hseed)
      as (H1 & H2 & H3).
    split; [exact H1|]. split; [exact H2|].
    intros Hok Hfuel. destruct (H3 Hok Hfuel) as (s' & Hp & _ & Hc).
    exists s'. auto.
Qed.

(** X12 at capacity 2 with the seed -5: nothing is written. *)
Lemma pattern_write_writes_ten_witness :
  1 ≤ 2 < SizeT.SIZE_MAX ∧
  BufferWriter.INT_MIN ≤ -5 ≤ Harness.INT_MAX ∧
  BufferWriter.pattern_write (GuardElem.ring_buffer 2) 10 (-5) (GuardElem.init 2 0)
    = Harness.Pass (GuardElem.init 2 0).
Proof.
  assert (H : 1 ≤ 2 < SizeT.SIZE_MAX)
    by (vm_compute; split; [discriminate | reflexivity]).
  assert (Hs : BufferWriter.INT_MIN ≤ -5 ≤ Harness.INT_MAX)
    by (vm_compute; split; discriminate).
  split; [exact H|]. split; [exact Hs|].
  destruct (proj1 (pattern_write_writes_ten 2 (-5) 10 H Hs) (GuardElem.init 2 0))
    as (_ & Hq & _).
  - exists [], []. reflexivity.
  - apply Hq. lia.
Defined.
